(** * draftfast/lineup_contraints.py: lineup constraint bookkeeping

    A shallow embedding of the constraint registry of draftfast
    ([LineupConstraints], [PlayerGroupConstraint], [ConstraintIterator])
    and the properties of its validation and conflict detection.

    Players are Python strings.  A Python [set] of players is a
    [gset string]; the [players] attribute of a group constraint and the
    [_constraints] attribute of the registry are Python lists.  Methods of
    [LineupConstraints] that mutate [self] and may raise are computations in
    a state-and-exception monad over the registry, so that the state left
    behind by a raised exception is part of the model. *)

From Stdlib Require Import ZArith.
From stdpp Require Import base decidable option list gmap sets strings.

Local Open Scope string_scope.
Local Open Scope Z_scope.

(** ** Exceptions *)

(** The messages of the exceptions the module raises, one constructor per
    string literal of the source; the two that are formatted with a player
    carry that player. *)
Inductive message : Type :=
  | Empty_ban_group
  | Empty_lock_group
  | No_players_in_group
  | Duplicate_players_in_group
  | Bound_must_be_length_2_or_int
  | Exact_bound_may_not_be_le_zero
  | Exact_bound_may_not_be_ge_number_of_players
  | Lower_bound_cannot_be_less_than_1
  | Lower_bound_cannot_equal_upper_bound
  | Upper_bound_cannot_be_less_than_lower_bound
  | Bound_cannot_be_greater_than_number_of_players
  | Ban_lock_constraint_already_exists (p : string)
  | Duplicate_constraint
  | exists_in_another_constraint (p : string).

(** [ConstraintException] and [ConstraintConflictException] are the two
    classes of the module; [TypeError] is what Python raises on an ordering
    comparison with [None]. *)
Inductive exn : Type :=
  | ConstraintException (m : message)
  | ConstraintConflictException (m : message)
  | TypeError.

(** ** The exception monad of constructors *)

Definition result (A : Type) : Type := exn + A.

#[global] Instance result_ret : MRet result := λ A x, inr x.
#[global] Instance result_bind : MBind result := λ A B f r,
  match r with
  | inl e => inl e
  | inr x => f x
  end.

(** ** Arguments *)

(** The [players] argument of [ban] and [lock]: a [str], or a sized
    collection of strings given by the list of its iteration. *)
Inductive players_arg : Type :=
  | Str (x : string)
  | Coll (l : list string).

(** The [bound] argument: an [int], a list or tuple of integers, or a value
    of any other type. *)
Inductive bound : Type :=
  | BInt (n : Z)
  | BSeq (l : list Z)
  | BOther.

Definition _iterableify (x : players_arg) : list string :=
  match x with
  | Str s => [s]
  | Coll l => l
  end.

(** ** PlayerGroupConstraint *)

Record PlayerGroupConstraint : Type := mkPlayerGroupConstraint {
  players : list string;
  exact : option Z;
  lo : option Z;
  hi : option Z
}.

#[global] Instance PlayerGroupConstraint_eq_dec : EqDecision PlayerGroupConstraint.
Proof. solve_decision. Defined.

(** [len(players)] as a Python integer. *)
Definition len_players (self : PlayerGroupConstraint) : Z :=
  Z.of_nat (length (players self)).

(** [PlayerConstraint.__init__]: the two checks on the group, then
    [self.players = players]. *)
Definition PlayerConstraint__init__ (players : list string) : result (list string) :=
  if bool_decide (length players = 0%nat)
  then inl (ConstraintException No_players_in_group)
  else if bool_decide (length players ≠ size (list_to_set players : gset string))
  then inl (ConstraintException Duplicate_players_in_group)
  else inr players.

Definition _exact_bounds_sanity_check (self : PlayerGroupConstraint) : result unit :=
  match exact self with
  | None => inl TypeError
  | Some e =>
      if e <=? 0
      then inl (ConstraintException Exact_bound_may_not_be_le_zero)
      else if len_players self <=? e
      then inl (ConstraintException Exact_bound_may_not_be_ge_number_of_players)
      else inr tt
  end.

Definition _hi_lo_bounds_sanity_check (self : PlayerGroupConstraint) : result unit :=
  match lo self, hi self with
  | Some l, Some h =>
      if l <? 1
      then inl (ConstraintException Lower_bound_cannot_be_less_than_1)
      else if h =? l
      then inl (ConstraintException Lower_bound_cannot_equal_upper_bound)
      else if h <? l
      then inl (ConstraintException Upper_bound_cannot_be_less_than_lower_bound)
      else if (len_players self <? h) || (len_players self <? l)
      then inl (ConstraintException Bound_cannot_be_greater_than_number_of_players)
      else inr tt
  | _, _ => inl TypeError
  end.

(** [PlayerGroupConstraint.__init__]: the checks of the parent class, the
    three bounds set to [None], then the bounds taken from a list or tuple
    of length 2, or from an [int], and checked. *)
Definition PlayerGroupConstraint__init__ (players' : list string) (b : bound)
  : result PlayerGroupConstraint :=
  ps ← PlayerConstraint__init__ players';
  let self := mkPlayerGroupConstraint ps None None None in
  match b with
  | BSeq [b0; b1] =>
      let self := mkPlayerGroupConstraint (players self) (exact self) (Some b0) (Some b1) in
      _hi_lo_bounds_sanity_check self;;
      mret self
  | BInt n =>
      let self := mkPlayerGroupConstraint (players self) (Some n) (lo self) (hi self) in
      _exact_bounds_sanity_check self;;
      mret self
  | _ => inl (ConstraintException Bound_must_be_length_2_or_int)
  end.

(** [PlayerGroupConstraint.__eq__]: equal sets of players and equal
    [exact], [lo] and [hi]. *)
Definition PlayerGroupConstraint__eq__ (self constraint : PlayerGroupConstraint) : bool :=
  bool_decide ((list_to_set (players self) : gset string) = list_to_set (players constraint))
  && bool_decide (exact self = exact constraint)
  && bool_decide (lo self = lo constraint)
  && bool_decide (hi self = hi constraint).

(** [constraint in constraints] on a Python list: some item is, or compares
    equal to, the needle; an item is equal to itself under [__eq__]. *)
Definition list_contains (constraint : PlayerGroupConstraint)
    (constraints : list PlayerGroupConstraint) : bool :=
  existsb (λ item, PlayerGroupConstraint__eq__ item constraint) constraints.

(** ** LineupConstraints *)

Record LineupConstraints : Type := mkLineupConstraints {
  _constraints : list PlayerGroupConstraint;
  _banned : gset string;
  _locked : gset string;
  _banned_for_exposure : gset string;
  _locked_for_exposure : gset string
}.

Definition LineupConstraints__init__ : LineupConstraints :=
  mkLineupConstraints [] ∅ ∅ ∅ ∅.

(** *** The monad of the mutating methods

    A method takes the registry it is called on and returns the registry it
    leaves behind together with its value or the exception it raised. *)

Definition method (A : Type) : Type :=
  LineupConstraints → LineupConstraints * result A.

#[global] Instance method_ret : MRet method := λ A x self, (self, inr x).
#[global] Instance method_bind : MBind method := λ A B f m self,
  match m self with
  | (self', inl e) => (self', inl e)
  | (self', inr x) => f x self'
  end.

Definition raise {A : Type} (e : exn) : method A := λ self, (self, inl e).
Definition get_self : method LineupConstraints := λ self, (self, inr self).
Definition modify (f : LineupConstraints → LineupConstraints) : method unit :=
  λ self, (f self, inr tt).
Definition lift {A : Type} (r : result A) : method A := λ self, (self, r).

(** [for x in l: body(x)]. *)
Fixpoint for_each {A : Type} (l : list A) (body : A → method unit) : method unit :=
  match l with
  | [] => mret tt
  | x :: l' => body x;; for_each l' body
  end.

(** The in-place updates of the attributes. *)
Definition append_constraint (c : PlayerGroupConstraint) (self : LineupConstraints) :=
  mkLineupConstraints (_constraints self ++ [c]) (_banned self) (_locked self)
    (_banned_for_exposure self) (_locked_for_exposure self).
Definition update_banned (ps : list string) (self : LineupConstraints) :=
  mkLineupConstraints (_constraints self) (_banned self ∪ list_to_set ps) (_locked self)
    (_banned_for_exposure self) (_locked_for_exposure self).
Definition update_locked (ps : list string) (self : LineupConstraints) :=
  mkLineupConstraints (_constraints self) (_banned self) (_locked self ∪ list_to_set ps)
    (_banned_for_exposure self) (_locked_for_exposure self).
Definition update_banned_for_exposure (ps : list string) (self : LineupConstraints) :=
  mkLineupConstraints (_constraints self) (_banned self) (_locked self)
    (_banned_for_exposure self ∪ list_to_set ps) (_locked_for_exposure self).
Definition update_locked_for_exposure (ps : list string) (self : LineupConstraints) :=
  mkLineupConstraints (_constraints self) (_banned self) (_locked self)
    (_banned_for_exposure self) (_locked_for_exposure self ∪ list_to_set ps).
Definition clear_locked_for_exposure (self : LineupConstraints) :=
  mkLineupConstraints (_constraints self) (_banned self) (_locked self)
    (_banned_for_exposure self) ∅.
Definition clear_banned_for_exposure (self : LineupConstraints) :=
  mkLineupConstraints (_constraints self) (_banned self) (_locked self)
    ∅ (_locked_for_exposure self).

(** *** Queries *)

Definition __len__ (self : LineupConstraints) : nat :=
  (length (_constraints self) + size (_locked self) + size (_banned self)
   + size (_locked_for_exposure self) + size (_banned_for_exposure self))%nat.

(** Every stored constraint is a [PlayerGroupConstraint], the one concrete
    class of constraints, so the [isinstance] test of the loop holds. *)
Definition __contains__ (self : LineupConstraints) (player : string) : bool :=
  if bool_decide (player ∈ _locked self) then true
  else if bool_decide (player ∈ _banned self) then true
  else if bool_decide (player ∈ _locked_for_exposure self) then true
  else if bool_decide (player ∈ _banned_for_exposure self) then true
  else existsb (λ c, bool_decide (player ∈ players c)) (_constraints self).

Definition is_banned (self : LineupConstraints) (player : string) : bool :=
  bool_decide (player ∈ _banned self).

Definition is_locked (self : LineupConstraints) (player : string) : bool :=
  bool_decide (player ∈ _locked self).

(** *** Insertion *)

Definition _check_conflicts (constraint : PlayerGroupConstraint) : method unit :=
  for_each (players constraint) (λ p,
    self ← get_self;
    if bool_decide (p ∈ _locked self) || bool_decide (p ∈ _banned self)
    then raise (ConstraintConflictException (Ban_lock_constraint_already_exists p))
    else mret tt).

Definition _add (constraint : PlayerGroupConstraint) : method unit :=
  _check_conflicts constraint;;
  self ← get_self;
  if negb (list_contains constraint (_constraints self))
  then modify (append_constraint constraint)
  else raise (ConstraintConflictException Duplicate_constraint).

Definition add_group_constraint (players : list string) (b : bound) : method unit :=
  c ← lift (PlayerGroupConstraint__init__ players b);
  _add c.

Definition ban (players : players_arg) (for_exposure : bool) : method unit :=
  let _players := _iterableify players in
  if bool_decide (length _players = 0%nat)
  then raise (ConstraintException Empty_ban_group)
  else
    for_each _players (λ p,
      self ← get_self;
      if __contains__ self p
      then raise (ConstraintConflictException (exists_in_another_constraint p))
      else mret tt);;
    if for_exposure
    then modify (update_banned_for_exposure _players)
    else modify (update_banned _players).

Definition lock (players : players_arg) (for_exposure : bool) : method unit :=
  let _players := _iterableify players in
  if bool_decide (length _players = 0%nat)
  then raise (ConstraintException Empty_lock_group)
  else
    for_each _players (λ p,
      self ← get_self;
      if __contains__ self p
      then raise (ConstraintConflictException (exists_in_another_constraint p))
      else mret tt);;
    if for_exposure
    then modify (update_locked_for_exposure _players)
    else modify (update_locked _players).

Definition clear_exposure_constraints : method unit :=
  modify clear_locked_for_exposure;;
  modify clear_banned_for_exposure.

(** ** ConstraintIterator *)

Inductive iter_exn : Type := StopIteration | IndexError.

(** The iterator holds the list of the registry it was made from and its
    own position. *)
Record ConstraintIterator : Type := mkConstraintIterator {
  it_constraints : list PlayerGroupConstraint;
  ndx : nat
}.

Definition ConstraintIterator__init__ (constraints : list PlayerGroupConstraint) :=
  mkConstraintIterator constraints 0.

Definition __iter__ (self : LineupConstraints) : ConstraintIterator :=
  ConstraintIterator__init__ (_constraints self).

(** [__next__] returns the iterator it leaves behind and the item, or the
    exception raised. *)
Definition __next__ (self : ConstraintIterator)
  : ConstraintIterator * (iter_exn + PlayerGroupConstraint) :=
  if bool_decide (length (it_constraints self) ≤ ndx self)%nat
  then (self, inl StopIteration)
  else
    match it_constraints self !! ndx self with
    | None => (self, inl IndexError)
    | Some r => (mkConstraintIterator (it_constraints self) (ndx self + 1)%nat, inr r)
    end.

(** [for c in constraints: yielded.append(c)], the protocol of a [for]
    loop: [__next__] is called until it raises [StopIteration].  [None]
    when [fuel] calls did not reach the end. *)
Fixpoint for_loop (fuel : nat) (it : ConstraintIterator)
  : option (list PlayerGroupConstraint * ConstraintIterator) :=
  match fuel with
  | O => None
  | S fuel' =>
      match __next__ it with
      | (it', inr r) =>
          match for_loop fuel' it' with
          | Some (yielded, it'') => Some (r :: yielded, it'')
          | None => None
          end
      | (it', inl _) => Some ([], it')
      end
  end.

(** ** Hashing and equality of containers *)

From stdpp Require Import sorting pretty.

Local Open Scope string_scope.
Local Open Scope Z_scope.

(** The order of [sorted] on strings: lexicographic on the characters. *)
Definition string_le (s1 s2 : string) : Prop := String.leb s1 s2 = true.

#[global] Instance string_le_dec : RelDecision string_le :=
  λ s1 s2, decide (String.leb s1 s2 = true).

Definition sorted (l : list string) : list string := merge_sort string_le l.

(** [PlayerConstraint.__eq__] and [PlayerConstraint.__contains__]. *)
Definition PlayerConstraint__eq__ (self rule : PlayerGroupConstraint) : bool :=
  bool_decide ((list_to_set (players self) : gset string) = list_to_set (players rule)).

Definition PlayerConstraint__contains__ (self : PlayerGroupConstraint)
    (player : string) : bool :=
  bool_decide (player ∈ players self).

Section hashing.
(** Python's [hash] on a [str] and on the 4-tuple of an integer and three
    values that are an integer or [None]: functions of the value. *)
Variable hash_str : string → Z.
Variable hash_tuple : Z * option Z * option Z * option Z → Z.

Definition PlayerConstraint__hash__ (self : PlayerGroupConstraint) : Z :=
  hash_str (String.concat "" (sorted (players self))).

Definition PlayerGroupConstraint__hash__ (self : PlayerGroupConstraint) : Z :=
  hash_tuple (PlayerConstraint__hash__ self, exact self, lo self, hi self).

(** A Python [set] of constraints, as the list of its entries.  A key is
    in the set when an entry has its hash and compares equal to it. *)
Definition py_set_contains (s : list PlayerGroupConstraint)
    (key : PlayerGroupConstraint) : bool :=
  existsb (λ entry,
    bool_decide (PlayerGroupConstraint__hash__ entry = PlayerGroupConstraint__hash__ key)
    && PlayerGroupConstraint__eq__ entry key) s.

Definition py_set_add (s : list PlayerGroupConstraint) (key : PlayerGroupConstraint)
  : list PlayerGroupConstraint :=
  if py_set_contains s key then s else s ++ [key].

(** [set(constraints)]. *)
Definition py_set (constraints : list PlayerGroupConstraint)
  : list PlayerGroupConstraint :=
  foldl py_set_add [] constraints.

(** [v == w] on sets: the same number of entries, and every entry of [v]
    is in [w]. *)
Definition py_set_eq (v w : list PlayerGroupConstraint) : bool :=
  bool_decide (length v = length w) && forallb (py_set_contains w) v.

Definition LineupConstraints__eq__ (self constraintset : LineupConstraints) : bool :=
  if bool_decide (length (_constraints self) ≠ length (_constraints constraintset))
  then false
  else if negb (py_set_eq (py_set (_constraints self)) (py_set (_constraints constraintset)))
  then false
  else if bool_decide (_locked self ≠ _locked constraintset) then false
  else if bool_decide (_banned self ≠ _banned constraintset) then false
  else if bool_decide (_locked_for_exposure self ≠ _locked_for_exposure constraintset)
  then false
  else if bool_decide (_banned_for_exposure self ≠ _banned_for_exposure constraintset)
  then false
  else true.
End hashing.

(** ** Display of the bounds *)

(** The truth value of [self.exact]: [None] and [0] are false. *)
Definition truthy (o : option Z) : bool :=
  match o with
  | Some z => negb (z =? 0)
  | None => false
  end.

(** [format] of an integer or [None]. *)
Definition format_value (o : option Z) : string :=
  match o with
  | Some z => pretty z
  | None => "None"
  end.

Definition _bounds_str (self : PlayerGroupConstraint) : string :=
  if truthy (exact self)
  then format_value (exact self)
  else (format_value (lo self) ++ " to " ++ format_value (hi self))%string.

(** ** Sequences of calls *)

(** A call of a public mutating method of the registry. *)
Inductive call : Type :=
  | Call_add_group_constraint (ps : list string) (b : bound)
  | Call_ban (ps : players_arg) (for_exposure : bool)
  | Call_lock (ps : players_arg) (for_exposure : bool)
  | Call_clear_exposure_constraints.

Definition run_call (c : call) : method unit :=
  match c with
  | Call_add_group_constraint ps b => add_group_constraint ps b
  | Call_ban ps for_exposure => ban ps for_exposure
  | Call_lock ps for_exposure => lock ps for_exposure
  | Call_clear_exposure_constraints => clear_exposure_constraints
  end.

(** The registry after a sequence of calls on a new registry, each call
    returning or raising an exception that the caller catches. *)
Definition run_calls (cs : list call) : LineupConstraints :=
  foldl (λ self c, (run_call c self).1) LineupConstraints__init__ cs.

(** What construction checks of a constraint. *)
Definition valid_constraint (c : PlayerGroupConstraint) : Prop :=
  players c ≠ [] ∧ NoDup (players c)
  ∧ ((∃ e, exact c = Some e ∧ lo c = None ∧ hi c = None
           ∧ 0 < e < Z.of_nat (length (players c)))
     ∨ (∃ l h, exact c = None ∧ lo c = Some l ∧ hi c = Some h
               ∧ 1 ≤ l ∧ l < h ∧ h ≤ Z.of_nat (length (players c)))).

(** What the registry keeps: valid constraints, no two of them equal, the
    four sets of players pairwise disjoint, and no player of a stored group
    banned or locked. *)
Definition registry_invariant (self : LineupConstraints) : Prop :=
  Forall valid_constraint (_constraints self)
  ∧ (∀ i j ci cj,
       _constraints self !! i = Some ci → _constraints self !! j = Some cj →
       PlayerGroupConstraint__eq__ ci cj = true → i = j)
  ∧ _banned self ## _locked self
  ∧ _banned self ∪ _locked self ## _banned_for_exposure self ∪ _locked_for_exposure self
  ∧ _banned_for_exposure self ## _locked_for_exposure self
  ∧ (∀ c p, c ∈ _constraints self → p ∈ players c →
            (p ∉ _banned self) ∧ (p ∉ _locked self)).

(** * Properties *)

(** ** Construction of a group constraint *)

Section construction.
Variable P : list string.
Hypothesis P_nonempty : P ≠ [].
Hypothesis P_nodup : NoDup P.

Lemma PlayerConstraint__init___ok : PlayerConstraint__init__ P = inr P.
Proof.
  unfold PlayerConstraint__init__.
  rewrite bool_decide_eq_false_2; last by destruct P.
  rewrite bool_decide_eq_false_2; first done.
  intros Hne. apply Hne. symmetry. by apply size_list_to_set.
Qed.

Lemma init_exact (e : Z) :
  PlayerGroupConstraint__init__ P (BInt e) =
    let self := mkPlayerGroupConstraint P (Some e) None None in
    _exact_bounds_sanity_check self;; mret self.
Proof.
  unfold PlayerGroupConstraint__init__. by rewrite PlayerConstraint__init___ok.
Qed.

Lemma init_range (l h : Z) :
  PlayerGroupConstraint__init__ P (BSeq [l; h]) =
    let self := mkPlayerGroupConstraint P None (Some l) (Some h) in
    _hi_lo_bounds_sanity_check self;; mret self.
Proof.
  unfold PlayerGroupConstraint__init__. by rewrite PlayerConstraint__init___ok.
Qed.
End construction.

(** C1. For a non-empty group [P] without duplicates and an integer bound
    [e], construction in exact mode returns the constraint with
    [exact = e] when [0 < e < |P|], and raises [ConstraintException] when
    [e <= 0] or [e >= |P|]. *)
Theorem exact_bound_construction (P : list string) (e : Z) :
  P ≠ [] → NoDup P →
  (0 < e < Z.of_nat (length P) →
     PlayerGroupConstraint__init__ P (BInt e)
     = inr (mkPlayerGroupConstraint P (Some e) None None))
  ∧ (e ≤ 0 ∨ e >= Z.of_nat (length P) →
     ∃ m, PlayerGroupConstraint__init__ P (BInt e) = inl (ConstraintException m)).
Proof.
  intros Hne Hnd. rewrite init_exact by done.
  cbn. unfold _exact_bounds_sanity_check, len_players. cbn.
  split.
  - intros [H0 Hlen].
    destruct (Z.leb_spec e 0); [lia|].
    destruct (Z.leb_spec (Z.of_nat (length P)) e); [lia|]. done.
  - intros Hbad.
    destruct (Z.leb_spec e 0); [by eexists|].
    destruct (Z.leb_spec (Z.of_nat (length P)) e); [by eexists|]. lia.
Qed.

Lemma exact_bound_construction_witness :
  PlayerGroupConstraint__init__ ["a"; "b"; "c"] (BInt 2)
  = inr (mkPlayerGroupConstraint ["a"; "b"; "c"] (Some 2) None None).
Proof.
  apply (exact_bound_construction ["a"; "b"; "c"] 2).
  - done.
  - apply (bool_decide_unpack _). by vm_compute.
  - cbn. lia.
Defined.

(** C2. For a non-empty group [P] without duplicates and integers [lo] and
    [hi], construction in range mode returns the constraint with these
    bounds when [1 <= lo < hi <= |P|], and raises [ConstraintException]
    when [hi = lo], [hi < lo], [lo < 1], or one of them exceeds [|P|]. *)
Theorem range_bound_construction (P : list string) (l h : Z) :
  P ≠ [] → NoDup P →
  (1 ≤ l ∧ l < h ∧ h ≤ Z.of_nat (length P) →
     PlayerGroupConstraint__init__ P (BSeq [l; h])
     = inr (mkPlayerGroupConstraint P None (Some l) (Some h)))
  ∧ (h = l ∨ h < l ∨ l < 1 ∨ l > Z.of_nat (length P) ∨ h > Z.of_nat (length P) →
     ∃ m, PlayerGroupConstraint__init__ P (BSeq [l; h]) = inl (ConstraintException m)).
Proof.
  intros Hne Hnd. rewrite init_range by done.
  cbn. unfold _hi_lo_bounds_sanity_check, len_players. cbn.
  split.
  - intros (H1 & Hlt & Hlen).
    destruct (Z.ltb_spec l 1); [lia|].
    destruct (Z.eqb_spec h l); [lia|].
    destruct (Z.ltb_spec h l); [lia|].
    destruct (Z.ltb_spec (Z.of_nat (length P)) h); [lia|].
    destruct (Z.ltb_spec (Z.of_nat (length P)) l); [lia|]. done.
  - intros Hbad.
    destruct (Z.ltb_spec l 1); [by eexists|].
    destruct (Z.eqb_spec h l); [by eexists|].
    destruct (Z.ltb_spec h l); [by eexists|].
    destruct (Z.ltb_spec (Z.of_nat (length P)) h); [by eexists|].
    destruct (Z.ltb_spec (Z.of_nat (length P)) l); [by eexists|]. lia.
Qed.

Lemma range_bound_construction_witness :
  PlayerGroupConstraint__init__ ["a"; "b"; "c"] (BSeq [1; 3])
  = inr (mkPlayerGroupConstraint ["a"; "b"; "c"] None (Some 1) (Some 3)).
Proof.
  apply (range_bound_construction ["a"; "b"; "c"] 1 3).
  - done.
  - apply (bool_decide_unpack _). by vm_compute.
  - cbn. lia.
Defined.

(** ** The checking loops *)

(** A loop that raises at the first element for which a test on [self]
    holds, and does nothing else, leaves [self] as it is: it raises for the
    first such element, and returns when there is none. *)
Lemma for_each_guard (bad : LineupConstraints → string → bool) (E : string → exn)
    (l : list string) (self : LineupConstraints) :
  for_each l (λ p, self ← get_self; if bad self p then raise (E p) else mret tt) self
  = (self, match find (bad self) l with
           | Some p => inl (E p)
           | None => inr tt
           end).
Proof.
  induction l as [|p l IH]; first done.
  cbn [for_each find]. unfold mbind, method_bind at 1.
  unfold mbind, method_bind at 1. unfold get_self at 1.
  destruct (bad self p); first done.
  unfold mret, method_ret at 1. exact IH.
Qed.

Lemma find_none_iff {A : Type} (f : A → bool) (l : list A) :
  find f l = None ↔ ∀ x, x ∈ l → f x = false.
Proof.
  induction l as [|y l IH]; cbn.
  - split; [intros _ x Hx; by apply elem_of_nil in Hx | done].
  - destruct (f y) eqn:Hy.
    + split; [done | intros H; specialize (H y); rewrite Hy in H; discriminate H; by left].
    + rewrite IH. split.
      * intros H x [->|Hx]%elem_of_cons; auto.
      * intros H x Hx. apply H. by right.
Qed.

Lemma existsb_elem_of {A : Type} (f : A → bool) (l : list A) :
  existsb f l = true ↔ ∃ x, x ∈ l ∧ f x = true.
Proof.
  rewrite existsb_exists. by setoid_rewrite list_elem_of_In.
Qed.

(** ** Membership *)

(** [__contains__] holds exactly of the players of the four sets and of the
    groups of the stored constraints. *)
Lemma __contains___iff (self : LineupConstraints) (p : string) :
  __contains__ self p = true ↔
    p ∈ _locked self ∨ p ∈ _banned self
    ∨ p ∈ _locked_for_exposure self ∨ p ∈ _banned_for_exposure self
    ∨ ∃ c, c ∈ _constraints self ∧ p ∈ players c.
Proof.
  unfold __contains__.
  repeat case_bool_decide; try (split; [intros _|]; by eauto 6).
  rewrite existsb_elem_of. split.
  - intros (c & Hc & Hp%bool_decide_eq_true). eauto 10.
  - intros [?|[?|[?|[?|(c & Hc & Hp)]]]]; try done.
    exists c. by rewrite bool_decide_eq_true.
Qed.

(** ** What [ban] and [lock] compute *)

Lemma ban_eq (players : players_arg) (for_exposure : bool) (self : LineupConstraints) :
  ban players for_exposure self =
    let _players := _iterableify players in
    match _players with
    | [] => (self, inl (ConstraintException Empty_ban_group))
    | _ =>
        match find (__contains__ self) _players with
        | Some p =>
            (self, inl (ConstraintConflictException (exists_in_another_constraint p)))
        | None =>
            (if for_exposure
             then update_banned_for_exposure _players self
             else update_banned _players self, inr tt)
        end
    end.
Proof.
  unfold ban. cbn zeta. destruct (_iterableify players) as [|p l] eqn:Hl; first done.
  rewrite bool_decide_eq_false_2 by done.
  unfold mbind at 1. unfold method_bind at 1.
  rewrite (for_each_guard __contains__
             (λ p, ConstraintConflictException (exists_in_another_constraint p))).
  destruct (find _ _); first done. by destruct for_exposure.
Qed.

Lemma lock_eq (players : players_arg) (for_exposure : bool) (self : LineupConstraints) :
  lock players for_exposure self =
    let _players := _iterableify players in
    match _players with
    | [] => (self, inl (ConstraintException Empty_lock_group))
    | _ =>
        match find (__contains__ self) _players with
        | Some p =>
            (self, inl (ConstraintConflictException (exists_in_another_constraint p)))
        | None =>
            (if for_exposure
             then update_locked_for_exposure _players self
             else update_locked _players self, inr tt)
        end
    end.
Proof.
  unfold lock. cbn zeta. destruct (_iterableify players) as [|p l] eqn:Hl; first done.
  rewrite bool_decide_eq_false_2 by done.
  unfold mbind at 1. unfold method_bind at 1.
  rewrite (for_each_guard __contains__
             (λ p, ConstraintConflictException (exists_in_another_constraint p))).
  destruct (find _ _); first done. by destruct for_exposure.
Qed.

(** C3. Banning (not for exposure) a player who is in the group of a stored
    constraint, banned, locked, banned for exposure or locked for exposure
    raises [ConstraintConflictException] and leaves the registry, hence all
    five collections, as it was.  Any call of [ban] either returns, with
    every given player added to the targeted set and nothing else changed,
    or raises and leaves the registry as it was. *)
Theorem ban_conflict_atomic (self : LineupConstraints) :
  (∀ p : string,
     (∃ c, c ∈ _constraints self ∧ p ∈ players c)
     ∨ p ∈ _banned self ∨ p ∈ _locked self
     ∨ p ∈ _banned_for_exposure self ∨ p ∈ _locked_for_exposure self →
     ban (Str p) false self
     = (self, inl (ConstraintConflictException (exists_in_another_constraint p))))
  ∧ (∀ (ps : players_arg) (for_exposure : bool),
       (ban ps for_exposure self
        = (if for_exposure
           then mkLineupConstraints (_constraints self) (_banned self) (_locked self)
                  (_banned_for_exposure self ∪ list_to_set (_iterableify ps))
                  (_locked_for_exposure self)
           else mkLineupConstraints (_constraints self)
                  (_banned self ∪ list_to_set (_iterableify ps)) (_locked self)
                  (_banned_for_exposure self) (_locked_for_exposure self),
           inr tt))
       ∨ ∃ e, ban ps for_exposure self = (self, inl e)).
Proof.
  split.
  - intros p Hp. rewrite ban_eq. cbn.
    assert (__contains__ self p = true) as ->; last done.
    apply __contains___iff.
    destruct Hp as [Hc|[?|[?|[?|?]]]]; eauto 6.
  - intros ps for_exposure. rewrite ban_eq. cbn zeta.
    destruct (_iterableify ps) as [|p l]; first by eauto.
    destruct (find _ _); first by eauto.
    left. by destruct for_exposure.
Qed.

Lemma ban_conflict_atomic_witness :
  let self := (ban (Coll ["a"; "b"]) false LineupConstraints__init__).1 in
  ban (Str "a") false self
  = (self, inl (ConstraintConflictException (exists_in_another_constraint "a"))).
Proof.
  cbv zeta.
  apply (proj1 (ban_conflict_atomic
                  (ban (Coll ["a"; "b"]) false LineupConstraints__init__).1) "a").
  right; left. apply (bool_decide_unpack _). by vm_compute.
Defined.

(** ** Insertion of a group constraint *)

Lemma PlayerGroupConstraint__init___players (ps : list string) (b : bound)
    (c : PlayerGroupConstraint) :
  PlayerGroupConstraint__init__ ps b = inr c → players c = ps.
Proof.
  unfold PlayerGroupConstraint__init__, PlayerConstraint__init__.
  repeat case_bool_decide; try done.
  unfold mbind, result_bind, mret, result_ret.
  destruct b as [n|[|b0 [|b1 [|? ?]]]|]; try done.
  - destruct (_exact_bounds_sanity_check _); [done | by intros [= <-]].
  - destruct (_hi_lo_bounds_sanity_check _); [done | by intros [= <-]].
Qed.

Lemma PlayerGroupConstraint__eq___iff (c1 c2 : PlayerGroupConstraint) :
  PlayerGroupConstraint__eq__ c1 c2 = true ↔
    (list_to_set (players c1) : gset string) = list_to_set (players c2)
    ∧ exact c1 = exact c2 ∧ lo c1 = lo c2 ∧ hi c1 = hi c2.
Proof.
  unfold PlayerGroupConstraint__eq__.
  rewrite !andb_true_iff, !bool_decide_eq_true. tauto.
Qed.

Definition banned_or_locked (self : LineupConstraints) (p : string) : bool :=
  bool_decide (p ∈ _locked self) || bool_decide (p ∈ _banned self).

Lemma _add_eq (c : PlayerGroupConstraint) (self : LineupConstraints) :
  _add c self =
    match find (banned_or_locked self) (players c) with
    | Some p =>
        (self, inl (ConstraintConflictException (Ban_lock_constraint_already_exists p)))
    | None =>
        if list_contains c (_constraints self)
        then (self, inl (ConstraintConflictException Duplicate_constraint))
        else (append_constraint c self, inr tt)
    end.
Proof.
  unfold _add, _check_conflicts.
  unfold mbind at 1. unfold method_bind at 1.
  rewrite (for_each_guard banned_or_locked
             (λ p, ConstraintConflictException (Ban_lock_constraint_already_exists p))).
  destruct (find _ _); first done.
  unfold mbind, method_bind, get_self. by destruct (list_contains _ _).
Qed.

Lemma add_group_constraint_eq (ps : list string) (b : bound) (self : LineupConstraints) :
  add_group_constraint ps b self =
    match PlayerGroupConstraint__init__ ps b with
    | inl e => (self, inl e)
    | inr c => _add c self
    end.
Proof.
  unfold add_group_constraint, mbind, method_bind, lift.
  by destruct (PlayerGroupConstraint__init__ ps b).
Qed.

(** C4. When the constraint built from [ps] and [b] has the same set of
    players and the same [exact], [lo] and [hi] as a stored constraint,
    [add_group_constraint ps b] raises [ConstraintConflictException] and
    leaves the registry, hence its [len], as it was. *)
Theorem add_duplicate_group_constraint (self : LineupConstraints)
    (ps : list string) (b : bound) (c stored : PlayerGroupConstraint) :
  PlayerGroupConstraint__init__ ps b = inr c →
  stored ∈ _constraints self →
  (list_to_set (players stored) : gset string) = list_to_set ps →
  exact stored = exact c → lo stored = lo c → hi stored = hi c →
  (∃ m, add_group_constraint ps b self = (self, inl (ConstraintConflictException m)))
  ∧ __len__ (add_group_constraint ps b self).1 = __len__ self.
Proof.
  intros Hinit Hstored Hps He Hl Hh.
  rewrite add_group_constraint_eq, Hinit, _add_eq.
  destruct (find _ _); first by eauto.
  assert (list_contains c (_constraints self) = true) as ->; last by eauto.
  apply existsb_elem_of. exists stored. split; first done.
  apply PlayerGroupConstraint__eq___iff.
  by rewrite (PlayerGroupConstraint__init___players _ _ _ Hinit).
Qed.

Lemma add_duplicate_group_constraint_witness :
  let self := (add_group_constraint ["a"; "b"; "c"] (BInt 2) LineupConstraints__init__).1 in
  (∃ m, add_group_constraint ["c"; "a"; "b"] (BInt 2) self
        = (self, inl (ConstraintConflictException m)))
  ∧ __len__ (add_group_constraint ["c"; "a"; "b"] (BInt 2) self).1 = __len__ self.
Proof.
  cbv zeta.
  apply (add_duplicate_group_constraint _ ["c"; "a"; "b"] (BInt 2)
           (mkPlayerGroupConstraint ["c"; "a"; "b"] (Some 2) None None)
           (mkPlayerGroupConstraint ["a"; "b"; "c"] (Some 2) None None)).
  - by vm_compute.
  - apply (bool_decide_unpack _). by vm_compute.
  - by vm_compute.
  - reflexivity.
  - reflexivity.
  - reflexivity.
Defined.

(** The registry with its two exposure sets replaced. *)
Definition with_exposure (banned_for_exposure locked_for_exposure : gset string)
    (self : LineupConstraints) : LineupConstraints :=
  mkLineupConstraints (_constraints self) (_banned self) (_locked self)
    banned_for_exposure locked_for_exposure.

Lemma _add_with_exposure (c : PlayerGroupConstraint) (self : LineupConstraints)
    (be le : gset string) :
  _add c (with_exposure be le self)
  = (with_exposure be le (_add c self).1, (_add c self).2).
Proof.
  rewrite !_add_eq. cbn [_constraints with_exposure].
  change (banned_or_locked (with_exposure be le self)) with (banned_or_locked self).
  destruct (find _ _); first done.
  by destruct (list_contains _ _).
Qed.

(** C5, what fails.  A player banned for exposure and neither banned nor
    locked does not make every valid group that contains the player
    insertable: the insertion raises when another player of the group is
    banned, and when an equal constraint is already stored. *)
Lemma add_group_constraint_exposure_banned_counterexample :
  (let self := (ban (Str "x") true (ban (Str "y") false LineupConstraints__init__).1).1 in
   "x" ∈ _banned_for_exposure self ∧ ("x" ∉ _banned self) ∧ ("x" ∉ _locked self)
   ∧ "x" ∈ ["x"; "y"]
   ∧ PlayerGroupConstraint__init__ ["x"; "y"] (BInt 1)
     = inr (mkPlayerGroupConstraint ["x"; "y"] (Some 1) None None)
   ∧ add_group_constraint ["x"; "y"] (BInt 1) self
     = (self, inl (ConstraintConflictException (Ban_lock_constraint_already_exists "y"))))
  ∧
  (let self := (add_group_constraint ["x"; "y"] (BInt 1)
                  (ban (Str "x") true LineupConstraints__init__).1).1 in
   "x" ∈ _banned_for_exposure self ∧ ("x" ∉ _banned self) ∧ ("x" ∉ _locked self)
   ∧ "x" ∈ ["x"; "y"]
   ∧ PlayerGroupConstraint__init__ ["x"; "y"] (BInt 1)
     = inr (mkPlayerGroupConstraint ["x"; "y"] (Some 1) None None)
   ∧ add_group_constraint ["x"; "y"] (BInt 1) self
     = (self, inl (ConstraintConflictException Duplicate_constraint))).
Proof.
  cbv zeta.
  repeat split;
    try (apply (bool_decide_unpack _); by vm_compute);
    by vm_compute.
Qed.

(** C5, as amended.  When [x] is banned for exposure, inserting a valid
    group that contains [x] returns and appends the constraint, provided no
    player of the group is banned or locked and no equal constraint is
    stored; and whatever the two exposure sets are, an insertion raises or
    returns the same. *)
Theorem add_group_constraint_exposure_banned (self : LineupConstraints) (x : string)
    (ps : list string) (b : bound) (c : PlayerGroupConstraint) :
  x ∈ _banned_for_exposure self →
  PlayerGroupConstraint__init__ ps b = inr c →
  x ∈ ps →
  (∀ p, p ∈ ps → (p ∉ _banned self) ∧ (p ∉ _locked self)) →
  (∀ c', c' ∈ _constraints self → PlayerGroupConstraint__eq__ c' c = false) →
  add_group_constraint ps b self = (append_constraint c self, inr tt)
  ∧ ∀ be le : gset string,
      (add_group_constraint ps b (with_exposure be le self)).2
      = (add_group_constraint ps b self).2.
Proof.
  intros Hx Hinit Hin Hfree Hnew. split.
  - rewrite add_group_constraint_eq, Hinit, _add_eq.
    rewrite (PlayerGroupConstraint__init___players _ _ _ Hinit).
    assert (find (banned_or_locked self) ps = None) as ->.
    { apply find_none_iff. intros p [Hb Hl]%Hfree. unfold banned_or_locked.
      by rewrite !bool_decide_eq_false_2. }
    assert (list_contains c (_constraints self) = false) as ->; last done.
    apply not_true_is_false. intros (c' & Hc' & Heq)%existsb_elem_of.
    by rewrite (Hnew c' Hc') in Heq.
  - intros be le. rewrite !add_group_constraint_eq, Hinit.
    by rewrite _add_with_exposure.
Qed.

Lemma add_group_constraint_exposure_banned_witness :
  let self := (ban (Str "x") true LineupConstraints__init__).1 in
  add_group_constraint ["x"; "y"] (BInt 1) self
  = (append_constraint (mkPlayerGroupConstraint ["x"; "y"] (Some 1) None None) self,
     inr tt).
Proof.
  cbv zeta.
  apply (add_group_constraint_exposure_banned _ "x" ["x"; "y"] (BInt 1)).
  - apply (bool_decide_unpack _). by vm_compute.
  - by vm_compute.
  - apply (bool_decide_unpack _). by vm_compute.
  - apply Forall_forall. apply (bool_decide_unpack _). by vm_compute.
  - apply Forall_forall. apply (bool_decide_unpack _). by vm_compute.
Defined.

(** C10. Inserting a valid group whose players overlap those of a stored
    constraint, and are the set of players of no stored constraint, returns
    and appends the constraint, provided none of its players is banned or
    locked: the players of the stored groups are not consulted, and a
    player then belongs to two stored constraints. *)
Theorem add_overlapping_group_constraint (self : LineupConstraints)
    (ps : list string) (b : bound) (c stored : PlayerGroupConstraint) (x : string) :
  PlayerGroupConstraint__init__ ps b = inr c →
  stored ∈ _constraints self → x ∈ players stored → x ∈ ps →
  (∀ c', c' ∈ _constraints self →
         (list_to_set (players c') : gset string) ≠ list_to_set ps) →
  (∀ p, p ∈ ps → (p ∉ _banned self) ∧ (p ∉ _locked self)) →
  add_group_constraint ps b self = (append_constraint c self, inr tt)
  ∧ (let self' := (add_group_constraint ps b self).1 in
     stored ∈ _constraints self' ∧ c ∈ _constraints self' ∧ stored ≠ c
     ∧ x ∈ players stored ∧ x ∈ players c).
Proof.
  intros Hinit Hstored Hxs Hxp Hne Hfree.
  pose proof (PlayerGroupConstraint__init___players _ _ _ Hinit) as Hps.
  assert (add_group_constraint ps b self = (append_constraint c self, inr tt)) as Hadd.
  { rewrite add_group_constraint_eq, Hinit, _add_eq, Hps.
    assert (find (banned_or_locked self) ps = None) as ->.
    { apply find_none_iff. intros p [Hb Hl]%Hfree. unfold banned_or_locked.
      by rewrite !bool_decide_eq_false_2. }
    assert (list_contains c (_constraints self) = false) as ->; last done.
    apply not_true_is_false.
    intros (c' & Hc' & (Heq & _)%PlayerGroupConstraint__eq___iff)%existsb_elem_of.
    apply (Hne c' Hc'). by rewrite <- Hps. }
  split; first done.
  rewrite Hadd. cbn. rewrite Hps. repeat split; try done.
  - apply elem_of_app. by left.
  - apply elem_of_app. right. by left.
  - intros ->. apply (Hne c Hstored). by rewrite Hps.
Qed.

Lemma add_overlapping_group_constraint_witness :
  let self := (add_group_constraint ["a"; "b"] (BInt 1) LineupConstraints__init__).1 in
  add_group_constraint ["b"; "c"] (BInt 1) self
  = (append_constraint (mkPlayerGroupConstraint ["b"; "c"] (Some 1) None None) self,
     inr tt).
Proof.
  cbv zeta.
  apply (add_overlapping_group_constraint _ ["b"; "c"] (BInt 1) _
           (mkPlayerGroupConstraint ["a"; "b"] (Some 1) None None) "b").
  - by vm_compute.
  - apply (bool_decide_unpack _). by vm_compute.
  - apply (bool_decide_unpack _). by vm_compute.
  - apply (bool_decide_unpack _). by vm_compute.
  - apply Forall_forall. apply (bool_decide_unpack _). by vm_compute.
  - apply Forall_forall. apply (bool_decide_unpack _). by vm_compute.
Defined.

(** ** Locks for exposure *)

(** C6. After [lock(x, for_exposure=True)], [is_locked(x)] answers what it
    answered before, which is [False] whenever the call returned, and [x]
    passes the membership test; the call returns when [x] did not pass the
    membership test before. *)
Theorem lock_for_exposure_invisible (self self' : LineupConstraints) (x : string)
    (r : result unit) :
  lock (Str x) true self = (self', r) →
  is_locked self' x = is_locked self x
  ∧ (r = inr tt → is_locked self' x = false)
  ∧ __contains__ self' x = true
  ∧ (__contains__ self x = false → r = inr tt).
Proof.
  rewrite lock_eq. cbn.
  destruct (__contains__ self x) eqn:Hc.
  - intros [= <- <-]. done.
  - intros [= <- <-].
    assert (x ∉ _locked self) as Hnl.
    { intros Hl. apply not_true_iff_false in Hc. apply Hc.
      apply __contains___iff. by left. }
    unfold is_locked. cbn. rewrite bool_decide_eq_false_2 by done.
    repeat split; try done.
    apply __contains___iff. cbn. right; right; left. set_solver.
Qed.

Lemma lock_for_exposure_invisible_witness :
  let self' := (lock (Str "x") true LineupConstraints__init__).1 in
  is_locked self' "x" = false ∧ __contains__ self' "x" = true.
Proof.
  cbv zeta.
  destruct (lock_for_exposure_invisible LineupConstraints__init__
              (lock (Str "x") true LineupConstraints__init__).1 "x" (inr tt))
    as (_ & Hl & Hc & _).
  - by vm_compute.
  - split; [by apply Hl | exact Hc].
Defined.

(** C7. [clear_exposure_constraints] returns, leaves the two exposure sets
    empty, and leaves the constraints, the banned and the locked players as
    they were. *)
Theorem clear_exposure_constraints_frame (self : LineupConstraints) :
  let self' := (clear_exposure_constraints self).1 in
  (clear_exposure_constraints self).2 = inr tt
  ∧ _banned_for_exposure self' = ∅
  ∧ _locked_for_exposure self' = ∅
  ∧ _constraints self' = _constraints self
  ∧ _banned self' = _banned self
  ∧ _locked self' = _locked self.
Proof. done. Qed.

(** ** Bare identifiers *)

(** C9. A [str] given to [ban] or [lock] is taken as the collection of that
    one string, whatever its characters: the calls do what they do on the
    one-element list, and when they return the targeted set has gained the
    string itself and nothing else. *)
Theorem bare_identifier_is_singleton (x : string) (for_exposure : bool)
    (self : LineupConstraints) :
  _iterableify (Str x) = [x]
  ∧ ban (Str x) for_exposure self = ban (Coll [x]) for_exposure self
  ∧ lock (Str x) for_exposure self = lock (Coll [x]) for_exposure self
  ∧ (∀ self', ban (Str x) false self = (self', inr tt) →
       _banned self' = _banned self ∪ {[x]})
  ∧ (∀ self', lock (Str x) false self = (self', inr tt) →
       _locked self' = _locked self ∪ {[x]}).
Proof.
  split; [reflexivity|]. split; [reflexivity|]. split; [reflexivity|].
  split; intros self'.
  - rewrite ban_eq. cbn. destruct (__contains__ self x); first done.
    intros [= <-]. cbn. by rewrite (right_id_L ∅ (∪)).
  - rewrite lock_eq. cbn. destruct (__contains__ self x); first done.
    intros [= <-]. cbn. by rewrite (right_id_L ∅ (∪)).
Qed.

Lemma bare_identifier_is_singleton_witness :
  let self' := (ban (Str "ab") false LineupConstraints__init__).1 in
  _banned self' = _banned LineupConstraints__init__ ∪ {["ab"]}.
Proof.
  cbv zeta.
  apply (bare_identifier_is_singleton "ab" false LineupConstraints__init__).
  by vm_compute.
Defined.

(** The two characters of a banned ["ab"] are not banned. *)
Example ban_ab :
  let self' := (ban (Str "ab") false LineupConstraints__init__).1 in
  is_banned self' "ab" = true ∧ is_banned self' "a" = false
  ∧ is_banned self' "b" = false ∧ __len__ self' = 1%nat.
Proof. by vm_compute. Qed.

(** ** Iteration *)

Lemma __next___in_range (l : list PlayerGroupConstraint) (k : nat)
    (r : PlayerGroupConstraint) :
  l !! k = Some r →
  __next__ (mkConstraintIterator l k) = (mkConstraintIterator l (k + 1), inr r).
Proof.
  intros Hk. unfold __next__. cbn.
  rewrite bool_decide_eq_false_2.
  - by rewrite Hk.
  - apply lookup_lt_Some in Hk. lia.
Qed.

Lemma __next___at_end (l : list PlayerGroupConstraint) (k : nat) :
  (length l ≤ k)%nat →
  __next__ (mkConstraintIterator l k) = (mkConstraintIterator l k, inl StopIteration).
Proof. intros Hk. unfold __next__. cbn. by rewrite bool_decide_eq_true_2. Qed.

(** A loop over an iterator at position [k] yields the items from [k] on
    and leaves the iterator at the end of the list. *)
Lemma for_loop_from (l : list PlayerGroupConstraint) (fuel k : nat) :
  (k ≤ length l)%nat → (length l - k < fuel)%nat →
  for_loop fuel (mkConstraintIterator l k)
  = Some (drop k l, mkConstraintIterator l (length l)).
Proof.
  revert k. induction fuel as [|fuel IH]; intros k Hk Hfuel; first lia.
  cbn [for_loop].
  destruct (l !! k) as [r|] eqn:Hr.
  - rewrite (__next___in_range _ _ _ Hr).
    pose proof (lookup_lt_Some _ _ _ Hr) as Hlt.
    rewrite IH by lia.
    rewrite (drop_S _ _ _ Hr). by rewrite Nat.add_1_r.
  - apply lookup_ge_None in Hr.
    rewrite __next___at_end by done.
    rewrite drop_ge by done.
    by replace k with (length l) by lia.
Qed.

Lemma add_group_constraint_appends (ps : list string) (b : bound)
    (self self' : LineupConstraints) :
  add_group_constraint ps b self = (self', inr tt) →
  ∃ c, PlayerGroupConstraint__init__ ps b = inr c ∧ self' = append_constraint c self.
Proof.
  rewrite add_group_constraint_eq.
  destruct (PlayerGroupConstraint__init__ ps b) as [e|c]; first done.
  rewrite _add_eq. destruct (find _ _); first done.
  destruct (list_contains _ _); first done.
  intros [= <-]. by exists c.
Qed.

(** C8. A loop over a registry yields the stored constraints, each once and
    in the order of the list, to which every insertion appends; then
    [__next__] raises [StopIteration].  Every call of [__iter__] gives an
    iterator at position 0, so a second loop yields the same; and the
    yielded values do not depend on the four sets of players. *)
Theorem iteration_yields_constraints (self : LineupConstraints) (fuel : nat) :
  (length (_constraints self) < fuel)%nat →
  let it_end :=
    mkConstraintIterator (_constraints self) (length (_constraints self)) in
  __iter__ self = mkConstraintIterator (_constraints self) 0
  ∧ for_loop fuel (__iter__ self) = Some (_constraints self, it_end)
  ∧ __next__ it_end = (it_end, inl StopIteration)
  ∧ (∀ banned locked banned_for_exposure locked_for_exposure : gset string,
       for_loop fuel
         (__iter__ (mkLineupConstraints (_constraints self) banned locked
                      banned_for_exposure locked_for_exposure))
       = Some (_constraints self, it_end))
  ∧ (∀ (ps : list string) (b : bound) (self' : LineupConstraints),
       add_group_constraint ps b self = (self', inr tt) →
       ∃ c, for_loop (S fuel) (__iter__ self')
            = Some ((_constraints self ++ [c])%list,
                    mkConstraintIterator (_constraints self ++ [c])
                      (length (_constraints self ++ [c])%list))).
Proof.
  intros Hfuel it_end.
  assert (∀ l : list PlayerGroupConstraint, (length l < fuel)%nat →
            for_loop fuel (mkConstraintIterator l 0)
            = Some (l, mkConstraintIterator l (length l))) as Hloop.
  { intros l Hl. rewrite for_loop_from by lia. by rewrite drop_0. }
  repeat split.
  - by apply Hloop.
  - by apply __next___at_end.
  - intros. by apply Hloop.
  - intros ps b self' (c & _ & ->)%add_group_constraint_appends.
    exists c. unfold __iter__, ConstraintIterator__init__.
    cbn [_constraints append_constraint].
    rewrite for_loop_from; [by rewrite drop_0 | lia |].
    rewrite length_app. cbn [length]. lia.
Qed.

Lemma iteration_yields_constraints_witness :
  let self :=
    (add_group_constraint ["c"; "d"] (BSeq [1; 2])
       (add_group_constraint ["a"; "b"] (BInt 1) LineupConstraints__init__).1).1 in
  for_loop 3 (__iter__ self)
  = Some ([mkPlayerGroupConstraint ["a"; "b"] (Some 1) None None;
           mkPlayerGroupConstraint ["c"; "d"] None (Some 1) (Some 2)],
          mkConstraintIterator (_constraints self) 2).
Proof.
  cbv zeta.
  apply (iteration_yields_constraints
           (add_group_constraint ["c"; "d"] (BSeq [1; 2])
              (add_group_constraint ["a"; "b"] (BInt 1) LineupConstraints__init__).1).1 3).
  vm_compute. lia.
Defined.

(** Three insertions, then two loops. *)
Example three_constraints_twice :
  let c1 := mkPlayerGroupConstraint ["a"; "b"] (Some 1) None None in
  let c2 := mkPlayerGroupConstraint ["c"; "d"; "e"] None (Some 1) (Some 3) in
  let c3 := mkPlayerGroupConstraint ["a"; "c"] (Some 1) None None in
  let self :=
    (add_group_constraint ["a"; "c"] (BInt 1)
       (add_group_constraint ["c"; "d"; "e"] (BSeq [1; 3])
          (add_group_constraint ["a"; "b"] (BInt 1) LineupConstraints__init__).1).1).1 in
  fst <$> for_loop 4 (__iter__ self) = Some [c1; c2; c3]
  ∧ fst <$> for_loop 4 (__iter__ self) = Some [c1; c2; c3].
Proof. by vm_compute. Qed.

(** * Further properties *)

Local Open Scope list_scope.

(** ** What construction guarantees *)

Lemma size_list_to_set_le (l : list string) :
  (size (list_to_set l : gset string) ≤ length l)%nat.
Proof.
  induction l as [|x l IH]; cbn; first by rewrite size_empty.
  rewrite size_union_alt, size_singleton.
  pose proof (subseteq_size (list_to_set l ∖ {[x]}) (list_to_set l : gset string)) as Hle.
  assert (list_to_set l ∖ {[x]} ⊆ (list_to_set l : gset string)) as Hsub.
  { intros y [Hy _]%elem_of_difference. exact Hy. }
  specialize (Hle Hsub). lia.
Qed.

Lemma length_size_NoDup (l : list string) :
  length l = size (list_to_set l : gset string) → NoDup l.
Proof.
  induction l as [|x l IH]; first by constructor.
  cbn. intros Hlen. destruct (decide (x ∈ l)) as [Hin|Hnin].
  - assert ({[x]} ∪ list_to_set l = (list_to_set l : gset string)) as Heq.
    { apply subseteq_union_1_L. intros y ->%elem_of_singleton.
      by apply elem_of_list_to_set. }
    rewrite Heq in Hlen. pose proof (size_list_to_set_le l). lia.
  - constructor; first done. apply IH.
    rewrite size_union, size_singleton in Hlen; first lia.
    intros y ->%elem_of_singleton Hy%elem_of_list_to_set. done.
Qed.

Lemma PlayerConstraint__init___inv (ps ps' : list string) :
  PlayerConstraint__init__ ps = inr ps' → ps' = ps ∧ ps ≠ [] ∧ NoDup ps.
Proof.
  unfold PlayerConstraint__init__. repeat case_bool_decide; try done.
  intros [= <-]. split; first done. split.
  - by destruct ps.
  - by apply length_size_NoDup.
Qed.

Lemma PlayerGroupConstraint__init___valid (ps : list string) (b : bound)
    (c : PlayerGroupConstraint) :
  PlayerGroupConstraint__init__ ps b = inr c →
  players c = ps ∧ valid_constraint c.
Proof.
  intros Hinit.
  pose proof (PlayerGroupConstraint__init___players _ _ _ Hinit) as Hps.
  split; first done. revert Hinit.
  unfold PlayerGroupConstraint__init__.
  destruct (PlayerConstraint__init__ ps) as [e|ps'] eqn:Hpc; first done.
  apply PlayerConstraint__init___inv in Hpc as (-> & Hne & Hnd).
  unfold valid_constraint. rewrite Hps.
  unfold mbind, result_bind, mret, result_ret.
  destruct b as [n|[|b0 [|b1 [|? ?]]]|]; try done.
  - unfold _exact_bounds_sanity_check, len_players. cbn.
    destruct (Z.leb_spec n 0); first done.
    destruct (Z.leb_spec (Z.of_nat (length ps)) n); first done.
    intros [= <-]. cbn. repeat split; try done. left. exists n. by repeat split.
  - unfold _hi_lo_bounds_sanity_check, len_players. cbn.
    destruct (Z.ltb_spec b0 1); first done.
    destruct (Z.eqb_spec b1 b0); first done.
    destruct (Z.ltb_spec b1 b0); first done.
    destruct (Z.ltb_spec (Z.of_nat (length ps)) b1); first done.
    destruct (Z.ltb_spec (Z.of_nat (length ps)) b0); first done.
    intros [= <-]. cbn. repeat split; try done. right. exists b0, b1.
    repeat split; try done; lia.
Qed.

(** X1. A constraint that construction returns holds the players it was
    given, who are at least one and distinct, and either an exact bound
    [0 < e < |players|] and no range, or a range
    [1 <= lo < hi <= |players|] and no exact bound. *)
Theorem constructed_constraint_valid (ps : list string) (b : bound)
    (c : PlayerGroupConstraint) :
  PlayerGroupConstraint__init__ ps b = inr c →
  players c = ps ∧ valid_constraint c.
Proof. apply PlayerGroupConstraint__init___valid. Qed.

Lemma constructed_constraint_valid_witness :
  valid_constraint (mkPlayerGroupConstraint ["a"; "b"; "c"] None (Some 1) (Some 3)).
Proof.
  apply (constructed_constraint_valid ["a"; "b"; "c"] (BSeq [1; 3])).
  by vm_compute.
Defined.

(** X2. Construction raises for no players, then for repeated players,
    whatever the bound; for distinct players it raises for a bound that is
    neither an integer nor of length 2; and whatever it raises is a
    [ConstraintException]. *)
Theorem construction_errors (ps : list string) (b : bound) :
  (ps = [] →
     PlayerGroupConstraint__init__ ps b = inl (ConstraintException No_players_in_group))
  ∧ (ps ≠ [] → ¬ NoDup ps →
     PlayerGroupConstraint__init__ ps b
     = inl (ConstraintException Duplicate_players_in_group))
  ∧ (ps ≠ [] → NoDup ps → b = BOther ∨ (∃ l, b = BSeq l ∧ length l ≠ 2%nat) →
     PlayerGroupConstraint__init__ ps b
     = inl (ConstraintException Bound_must_be_length_2_or_int))
  ∧ (∀ e, PlayerGroupConstraint__init__ ps b = inl e → ∃ m, e = ConstraintException m).
Proof.
  repeat split.
  - by intros ->.
  - intros Hne Hdup. unfold PlayerGroupConstraint__init__, PlayerConstraint__init__.
    rewrite bool_decide_eq_false_2 by (by destruct ps).
    rewrite bool_decide_eq_true_2; first done.
    intros Hlen. by apply Hdup, length_size_NoDup.
  - intros Hne Hnd Hb. unfold PlayerGroupConstraint__init__.
    rewrite PlayerConstraint__init___ok by done.
    destruct Hb as [->|(l & -> & Hl)]; first done.
    by destruct l as [|? [|? [|? ?]]].
  - intros e. unfold PlayerGroupConstraint__init__, PlayerConstraint__init__.
    repeat case_bool_decide; try (intros [= <-]; by eexists).
    unfold mbind, result_bind, mret, result_ret.
    destruct b as [n|[|b0 [|b1 [|? ?]]]|]; try (intros [= <-]; by eexists).
    + unfold _exact_bounds_sanity_check. cbn.
      destruct (n <=? 0); [intros [= <-]; by eexists|].
      destruct (_ <=? n); [intros [= <-]; by eexists | done].
    + unfold _hi_lo_bounds_sanity_check. cbn.
      destruct (b0 <? 1); [intros [= <-]; by eexists|].
      destruct (b1 =? b0); [intros [= <-]; by eexists|].
      destruct (b1 <? b0); [intros [= <-]; by eexists|].
      destruct (_ || _); [intros [= <-]; by eexists | done].
Qed.

Lemma construction_errors_witness :
  PlayerGroupConstraint__init__ ["a"; "b"; "a"] BOther
  = inl (ConstraintException Duplicate_players_in_group).
Proof.
  apply (construction_errors ["a"; "b"; "a"] BOther).
  - done.
  - apply (bool_decide_unpack _). by vm_compute.
Defined.

(** ** Equality and hashing of constraints *)

Lemma PlayerGroupConstraint__eq___refl (c : PlayerGroupConstraint) :
  PlayerGroupConstraint__eq__ c c = true.
Proof. by apply PlayerGroupConstraint__eq___iff. Qed.

Lemma PlayerGroupConstraint__eq___sym (c1 c2 : PlayerGroupConstraint) :
  PlayerGroupConstraint__eq__ c1 c2 = PlayerGroupConstraint__eq__ c2 c1.
Proof.
  apply eq_true_iff_eq. rewrite !PlayerGroupConstraint__eq___iff.
  intuition congruence.
Qed.

Lemma PlayerGroupConstraint__eq___trans (c1 c2 c3 : PlayerGroupConstraint) :
  PlayerGroupConstraint__eq__ c1 c2 = true →
  PlayerGroupConstraint__eq__ c2 c3 = true →
  PlayerGroupConstraint__eq__ c1 c3 = true.
Proof. rewrite !PlayerGroupConstraint__eq___iff. intuition congruence. Qed.

(** X3. Equality of constraints is reflexive, symmetric and transitive,
    and does not see the order of the players. *)
Theorem PlayerGroupConstraint__eq___equivalence :
  (∀ c, PlayerGroupConstraint__eq__ c c = true)
  ∧ (∀ c1 c2, PlayerGroupConstraint__eq__ c1 c2 = PlayerGroupConstraint__eq__ c2 c1)
  ∧ (∀ c1 c2 c3,
       PlayerGroupConstraint__eq__ c1 c2 = true →
       PlayerGroupConstraint__eq__ c2 c3 = true →
       PlayerGroupConstraint__eq__ c1 c3 = true)
  ∧ (∀ ps1 ps2 e l h,
       ps1 ≡ₚ ps2 →
       PlayerGroupConstraint__eq__ (mkPlayerGroupConstraint ps1 e l h)
                                   (mkPlayerGroupConstraint ps2 e l h) = true).
Proof.
  split; [exact PlayerGroupConstraint__eq___refl|].
  split; [exact PlayerGroupConstraint__eq___sym|].
  split; [exact PlayerGroupConstraint__eq___trans|].
  intros ps1 ps2 e l h Hperm. apply PlayerGroupConstraint__eq___iff. cbn.
  repeat split. apply set_eq. intros x. rewrite !elem_of_list_to_set.
  by rewrite Hperm.
Qed.

Lemma PlayerGroupConstraint__eq___equivalence_witness :
  PlayerGroupConstraint__eq__
    (mkPlayerGroupConstraint ["a"; "b"; "c"] None (Some 1) (Some 2))
    (mkPlayerGroupConstraint ["c"; "a"; "b"] None (Some 1) (Some 2)) = true.
Proof.
  apply PlayerGroupConstraint__eq___equivalence.
  apply (bool_decide_unpack _). by vm_compute.
Defined.

(** The order of [sorted] is a total order. *)
Lemma string_leb_trans (s1 s2 s3 : string) :
  String.leb s1 s2 = true → String.leb s2 s3 = true → String.leb s1 s3 = true.
Proof.
  revert s2 s3. induction s1 as [|c1 s1 IH]; intros [|c2 s2] [|c3 s3]; try done.
  specialize (IH s2 s3). revert IH.
  unfold String.leb. cbn. unfold Ascii.compare.
  destruct (N.compare_spec (Ascii.N_of_ascii c1) (Ascii.N_of_ascii c2)) as [H12|H12|H12];
    destruct (N.compare_spec (Ascii.N_of_ascii c2) (Ascii.N_of_ascii c3)) as [H23|H23|H23];
    destruct (N.compare_spec (Ascii.N_of_ascii c1) (Ascii.N_of_ascii c3)) as [H13|H13|H13];
    try done; lia.
Qed.

#[global] Instance string_le_trans : Transitive string_le.
Proof. intros s1 s2 s3. apply string_leb_trans. Qed.
#[global] Instance string_le_antisymm : AntiSymm (=) string_le.
Proof. intros s1 s2. apply String.leb_antisym. Qed.
#[global] Instance string_le_total : Total string_le.
Proof. intros s1 s2. apply String.leb_total. Qed.

(** Distinct players that make the same set are sorted into the same
    list. *)
Lemma sorted_eq_of_same_set (l1 l2 : list string) :
  NoDup l1 → NoDup l2 →
  (list_to_set l1 : gset string) = list_to_set l2 →
  sorted l1 = sorted l2.
Proof.
  intros Hnd1 Hnd2 Hset. unfold sorted.
  apply (Sorted_unique string_le); try apply Sorted_merge_sort; try apply _.
  rewrite !merge_sort_Permutation.
  apply NoDup_Permutation; try done.
  intros x. rewrite <- !(elem_of_list_to_set (C:=gset string)). by rewrite Hset.
Qed.

Lemma PlayerGroupConstraint__hash___eq (hash_str : string → Z)
    (hash_tuple : Z * option Z * option Z * option Z → Z)
    (c1 c2 : PlayerGroupConstraint) :
  NoDup (players c1) → NoDup (players c2) →
  PlayerGroupConstraint__eq__ c1 c2 = true →
  PlayerGroupConstraint__hash__ hash_str hash_tuple c1
  = PlayerGroupConstraint__hash__ hash_str hash_tuple c2.
Proof.
  intros Hnd1 Hnd2 (Hset & He & Hl & Hh)%PlayerGroupConstraint__eq___iff.
  unfold PlayerGroupConstraint__hash__, PlayerConstraint__hash__.
  by rewrite (sorted_eq_of_same_set _ _ Hnd1 Hnd2 Hset), He, Hl, Hh.
Qed.

(** X4. Constraints with distinct players that compare equal have the same
    hash, whatever the hash of strings and of tuples is. *)
Theorem hash_consistent_with_eq (hash_str : string → Z)
    (hash_tuple : Z * option Z * option Z * option Z → Z)
    (c1 c2 : PlayerGroupConstraint) :
  NoDup (players c1) → NoDup (players c2) →
  PlayerGroupConstraint__eq__ c1 c2 = true →
  PlayerGroupConstraint__hash__ hash_str hash_tuple c1
  = PlayerGroupConstraint__hash__ hash_str hash_tuple c2.
Proof. apply PlayerGroupConstraint__hash___eq. Qed.

Lemma hash_consistent_with_eq_witness :
  let hash_str := λ s : string, Z.of_nat (String.length s) in
  let hash_tuple := λ t : Z * option Z * option Z * option Z, t.1.1.1 + 1 in
  PlayerGroupConstraint__hash__ hash_str hash_tuple
    (mkPlayerGroupConstraint ["b"; "a"] (Some 1) None None)
  = PlayerGroupConstraint__hash__ hash_str hash_tuple
      (mkPlayerGroupConstraint ["a"; "b"] (Some 1) None None).
Proof.
  cbv zeta. apply hash_consistent_with_eq.
  - apply (bool_decide_unpack _). by vm_compute.
  - apply (bool_decide_unpack _). by vm_compute.
  - by vm_compute.
Defined.

(** Without the check for repeated players the hash would not follow
    equality; and unequal constraints may hash alike. *)
Example hash_repeated_players :
  let c1 := mkPlayerGroupConstraint ["a"; "a"] (Some 1) None None in
  let c2 := mkPlayerGroupConstraint ["a"] (Some 1) None None in
  PlayerGroupConstraint__eq__ c1 c2 = true
  ∧ String.concat "" (sorted (players c1)) ≠ String.concat "" (sorted (players c2))
  ∧ String.concat "" (sorted ["ab"; "c"]) = String.concat "" (sorted ["a"; "bc"]).
Proof. by vm_compute. Qed.

(** ** Outcomes of [ban] and [lock] *)

Lemma find_first {A : Type} (f : A → bool) (before after : list A) (x : A) :
  (∀ y, y ∈ before → f y = false) → f x = true →
  find f (before ++ x :: after) = Some x.
Proof.
  intros Hbefore Hx. induction before as [|y before IH]; cbn.
  - by rewrite Hx.
  - rewrite (Hbefore y) by (by left). apply IH.
    intros z Hz. apply Hbefore. by right.
Qed.

Lemma find_all_false {A : Type} (f : A → bool) (l : list A) :
  (∀ y, y ∈ l → f y = false) → find f l = None.
Proof. apply find_none_iff. Qed.

(** X5. Locking a player who is in the group of a stored constraint,
    banned, locked, banned for exposure or locked for exposure raises
    [ConstraintConflictException] and leaves the registry as it was, for
    exposure or not.  Any call of [lock] either returns, with every given
    player added to the targeted set and nothing else changed, or raises
    and leaves the registry as it was. *)
Theorem lock_conflict_atomic (self : LineupConstraints) :
  (∀ (p : string) (for_exposure : bool),
     (∃ c, c ∈ _constraints self ∧ p ∈ players c)
     ∨ p ∈ _banned self ∨ p ∈ _locked self
     ∨ p ∈ _banned_for_exposure self ∨ p ∈ _locked_for_exposure self →
     lock (Str p) for_exposure self
     = (self, inl (ConstraintConflictException (exists_in_another_constraint p))))
  ∧ (∀ (ps : players_arg) (for_exposure : bool),
       (lock ps for_exposure self
        = (if for_exposure
           then mkLineupConstraints (_constraints self) (_banned self) (_locked self)
                  (_banned_for_exposure self)
                  (_locked_for_exposure self ∪ list_to_set (_iterableify ps))
           else mkLineupConstraints (_constraints self) (_banned self)
                  (_locked self ∪ list_to_set (_iterableify ps))
                  (_banned_for_exposure self) (_locked_for_exposure self),
           inr tt))
       ∨ ∃ e, lock ps for_exposure self = (self, inl e)).
Proof.
  split.
  - intros p for_exposure Hp. rewrite lock_eq. cbn.
    assert (__contains__ self p = true) as ->; last done.
    apply __contains___iff.
    destruct Hp as [Hc|[?|[?|[?|?]]]]; eauto 6.
  - intros ps for_exposure. rewrite lock_eq. cbn zeta.
    destruct (_iterableify ps) as [|p l]; first by eauto.
    destruct (find _ _); first by eauto.
    left. by destruct for_exposure.
Qed.

Lemma lock_conflict_atomic_witness :
  let self := (ban (Coll ["a"; "b"]) false LineupConstraints__init__).1 in
  lock (Str "b") false self
  = (self, inl (ConstraintConflictException (exists_in_another_constraint "b"))).
Proof.
  cbv zeta.
  apply (proj1 (lock_conflict_atomic
                  (ban (Coll ["a"; "b"]) false LineupConstraints__init__).1) "b" false).
  right; left. apply (bool_decide_unpack _). by vm_compute.
Defined.

(** X6. [ban] and [lock] raise [ConstraintException] for an empty
    collection; for a collection with a player who passes the membership
    test they raise [ConstraintConflictException] naming the first such
    player in the order of iteration; and they return when the collection
    is not empty and none of its players passes the test. *)
Theorem ban_lock_outcome (ps : players_arg) (for_exposure : bool)
    (self : LineupConstraints) :
  (_iterableify ps = [] →
     ban ps for_exposure self = (self, inl (ConstraintException Empty_ban_group))
     ∧ lock ps for_exposure self = (self, inl (ConstraintException Empty_lock_group)))
  ∧ (∀ (before : list string) (p : string) (after : list string),
       _iterableify ps = (before ++ p :: after)%list →
       (∀ q, q ∈ before → __contains__ self q = false) →
       __contains__ self p = true →
       ban ps for_exposure self
       = (self, inl (ConstraintConflictException (exists_in_another_constraint p)))
       ∧ lock ps for_exposure self
         = (self, inl (ConstraintConflictException (exists_in_another_constraint p))))
  ∧ (_iterableify ps ≠ [] →
     (∀ q, q ∈ _iterableify ps → __contains__ self q = false) →
     (ban ps for_exposure self).2 = inr tt ∧ (lock ps for_exposure self).2 = inr tt).
Proof.
  rewrite ban_eq, lock_eq. cbn zeta. split; [|split].
  - by intros ->.
  - intros before p after -> Hbefore Hp.
    rewrite (find_first _ _ _ _ Hbefore Hp). by destruct before.
  - intros Hne Hfresh. rewrite (find_all_false _ _ Hfresh).
    destruct (_iterableify ps); first done. by destruct for_exposure.
Qed.

Lemma ban_lock_outcome_witness :
  let self := (ban (Str "b") false LineupConstraints__init__).1 in
  ban (Coll ["a"; "b"; "c"]) true self
  = (self, inl (ConstraintConflictException (exists_in_another_constraint "b"))).
Proof.
  cbv zeta.
  apply (proj1 (proj2 (ban_lock_outcome (Coll ["a"; "b"; "c"]) true
                         (ban (Str "b") false LineupConstraints__init__).1))
           ["a"] "b" ["c"]).
  - reflexivity.
  - apply Forall_forall. apply (bool_decide_unpack _). by vm_compute.
  - by vm_compute.
Defined.

Lemma ban_returns (ps : players_arg) (for_exposure : bool)
    (self self' : LineupConstraints) :
  ban ps for_exposure self = (self', inr tt) →
  _iterableify ps ≠ []
  ∧ (∀ q, q ∈ _iterableify ps → __contains__ self q = false)
  ∧ self' = if for_exposure
            then update_banned_for_exposure (_iterableify ps) self
            else update_banned (_iterableify ps) self.
Proof.
  rewrite ban_eq. cbn zeta.
  destruct (_iterableify ps) as [|p l] eqn:Hl; first done.
  destruct (find _ _) eqn:Hfind; first done.
  intros [= <-]. split; first done. split; last done.
  by apply find_none_iff.
Qed.

Lemma lock_returns (ps : players_arg) (for_exposure : bool)
    (self self' : LineupConstraints) :
  lock ps for_exposure self = (self', inr tt) →
  _iterableify ps ≠ []
  ∧ (∀ q, q ∈ _iterableify ps → __contains__ self q = false)
  ∧ self' = if for_exposure
            then update_locked_for_exposure (_iterableify ps) self
            else update_locked (_iterableify ps) self.
Proof.
  rewrite lock_eq. cbn zeta.
  destruct (_iterableify ps) as [|p l] eqn:Hl; first done.
  destruct (find _ _) eqn:Hfind; first done.
  intros [= <-]. split; first done. split; last done.
  by apply find_none_iff.
Qed.

Lemma not_contains (self : LineupConstraints) (p : string) :
  __contains__ self p = false →
  (p ∉ _locked self) ∧ (p ∉ _banned self)
  ∧ (p ∉ _locked_for_exposure self) ∧ (p ∉ _banned_for_exposure self)
  ∧ ∀ c, c ∈ _constraints self → p ∉ players c.
Proof.
  intros Hc. apply not_true_iff_false in Hc.
  rewrite __contains___iff in Hc. repeat split; try (intros ?; apply Hc; by eauto 6).
  intros c Hin Hp. apply Hc. eauto 10.
Qed.

(** X7. After a returning [ban] that is not for exposure, [is_banned]
    holds of the given players and of those it held of before, and of no
    other; [is_locked] answers as before, and is false of the given
    players.  The same holds of [lock], with the two queries exchanged. *)
Theorem ban_lock_queries (ps : players_arg) (self self' : LineupConstraints) :
  (ban ps false self = (self', inr tt) →
     (∀ p, is_banned self' p = is_banned self p || bool_decide (p ∈ _iterableify ps))
     ∧ (∀ p, is_locked self' p = is_locked self p)
     ∧ (∀ p, p ∈ _iterableify ps → is_banned self' p = true ∧ is_locked self' p = false))
  ∧ (lock ps false self = (self', inr tt) →
     (∀ p, is_locked self' p = is_locked self p || bool_decide (p ∈ _iterableify ps))
     ∧ (∀ p, is_banned self' p = is_banned self p)
     ∧ (∀ p, p ∈ _iterableify ps → is_locked self' p = true ∧ is_banned self' p = false)).
Proof.
  split.
  - intros (Hne & Hfresh & ->)%ban_returns.
    assert (∀ p, is_banned (update_banned (_iterableify ps) self) p
                 = is_banned self p || bool_decide (p ∈ _iterableify ps)) as Hb.
    { intros p. unfold is_banned. cbn. apply eq_true_iff_eq.
      rewrite orb_true_iff, !bool_decide_eq_true, elem_of_union, elem_of_list_to_set.
      done. }
    split; [done|]. split; [done|]. intros p Hp. split.
    + rewrite Hb. rewrite (bool_decide_eq_true_2 _ Hp). apply orb_true_r.
    + unfold is_locked. cbn. apply bool_decide_eq_false_2.
      by apply not_contains, Hfresh.
  - intros (Hne & Hfresh & ->)%lock_returns.
    assert (∀ p, is_locked (update_locked (_iterableify ps) self) p
                 = is_locked self p || bool_decide (p ∈ _iterableify ps)) as Hb.
    { intros p. unfold is_locked. cbn. apply eq_true_iff_eq.
      rewrite orb_true_iff, !bool_decide_eq_true, elem_of_union, elem_of_list_to_set.
      done. }
    split; [done|]. split; [done|]. intros p Hp. split.
    + rewrite Hb. rewrite (bool_decide_eq_true_2 _ Hp). apply orb_true_r.
    + unfold is_banned. cbn. apply bool_decide_eq_false_2.
      by apply not_contains, Hfresh.
Qed.

Lemma ban_lock_queries_witness :
  let self' := (ban (Coll ["a"; "b"]) false LineupConstraints__init__).1 in
  is_banned self' "b" = true ∧ is_locked self' "b" = false.
Proof.
  cbv zeta.
  apply (proj1 (ban_lock_queries (Coll ["a"; "b"]) LineupConstraints__init__
                  (ban (Coll ["a"; "b"]) false LineupConstraints__init__).1)).
  - by vm_compute.
  - apply (bool_decide_unpack _). by vm_compute.
Defined.

(** X8. Calls for exposure, returning or raising, and the clearing of the
    exposure sets change neither the answers of [is_banned] and
    [is_locked] nor the stored constraints. *)
Theorem exposure_calls_invisible (ps : players_arg) (self : LineupConstraints) :
  ∀ self',
    self' = (ban ps true self).1 ∨ self' = (lock ps true self).1
    ∨ self' = (clear_exposure_constraints self).1 →
    (∀ p, is_banned self' p = is_banned self p)
    ∧ (∀ p, is_locked self' p = is_locked self p)
    ∧ _constraints self' = _constraints self.
Proof.
  intros self' [->|[->| ->]].
  - rewrite ban_eq. cbn zeta. destruct (_iterableify ps); first done.
    by destruct (find _ _).
  - rewrite lock_eq. cbn zeta. destruct (_iterableify ps); first done.
    by destruct (find _ _).
  - done.
Qed.

Lemma exposure_calls_invisible_witness :
  let self' := (ban (Str "a") true LineupConstraints__init__).1 in
  is_banned self' "a" = false.
Proof.
  cbv zeta.
  destruct (exposure_calls_invisible (Str "a") LineupConstraints__init__
              (ban (Str "a") true LineupConstraints__init__).1) as (Hb & _ & _).
  - by left.
  - by rewrite Hb.
Defined.

(** ** The count *)

Lemma size_union_fresh (X : gset string) (l : list string) :
  (∀ q, q ∈ l → q ∉ X) →
  size (X ∪ list_to_set l) = (size X + size (list_to_set l : gset string))%nat.
Proof.
  intros Hfresh. apply size_union.
  intros q HX Hl%elem_of_list_to_set. by apply (Hfresh q).
Qed.

(** X9. A returning [ban] or [lock] raises [len] by the number of distinct
    players given, a returning [add_group_constraint] raises it by one,
    and [clear_exposure_constraints] lowers it by the sizes of the two
    exposure sets. *)
Theorem len_accounting (self self' : LineupConstraints) :
  (∀ ps for_exposure,
     ban ps for_exposure self = (self', inr tt)
     ∨ lock ps for_exposure self = (self', inr tt) →
     __len__ self'
     = (__len__ self + size (list_to_set (_iterableify ps) : gset string))%nat)
  ∧ (∀ ps b,
       add_group_constraint ps b self = (self', inr tt) →
       __len__ self' = (__len__ self + 1)%nat)
  ∧ (clear_exposure_constraints self = (self', inr tt) →
     (__len__ self' + size (_banned_for_exposure self)
      + size (_locked_for_exposure self))%nat = __len__ self).
Proof.
  split; [|split].
  - intros ps for_exposure [(_ & Hfresh & ->)%ban_returns|(_ & Hfresh & ->)%lock_returns];
      destruct for_exposure; unfold __len__; cbn;
      rewrite size_union_fresh; try lia;
      intros q Hq; by apply not_contains, Hfresh.
  - intros ps b (c & _ & ->)%add_group_constraint_appends.
    unfold __len__. cbn. rewrite length_app. cbn. lia.
  - intros [= <-]. unfold __len__. cbn. rewrite size_empty. lia.
Qed.

Lemma len_accounting_witness :
  let self := (ban (Str "x") false LineupConstraints__init__).1 in
  __len__ (ban (Coll ["a"; "b"; "a"]) true self).1 = (__len__ self + 2)%nat.
Proof.
  cbv zeta.
  apply (proj1 (len_accounting (ban (Str "x") false LineupConstraints__init__).1
                  (ban (Coll ["a"; "b"; "a"]) true
                     (ban (Str "x") false LineupConstraints__init__).1).1)
           (Coll ["a"; "b"; "a"]) true).
  left. by vm_compute.
Defined.

(** ** Outcomes of [add_group_constraint] *)

(** X10. [add_group_constraint] raises what construction raises; else it
    raises [ConstraintConflictException] naming the first player of the
    group who is banned or locked; else it raises it for an equal stored
    constraint; else it returns.  It returns with the constraint appended
    and nothing else changed, and raises with the registry as it was. *)
Theorem add_group_constraint_outcome (ps : list string) (b : bound)
    (self : LineupConstraints) :
  (∀ e, PlayerGroupConstraint__init__ ps b = inl e →
        add_group_constraint ps b self = (self, inl e))
  ∧ (∀ c, PlayerGroupConstraint__init__ ps b = inr c →
       (∀ (before : list string) (p : string) (after : list string),
          ps = (before ++ p :: after)%list →
          (∀ q, q ∈ before → (q ∉ _locked self) ∧ (q ∉ _banned self)) →
          p ∈ _locked self ∨ p ∈ _banned self →
          add_group_constraint ps b self
          = (self, inl (ConstraintConflictException
                          (Ban_lock_constraint_already_exists p))))
       ∧ ((∀ q, q ∈ ps → (q ∉ _locked self) ∧ (q ∉ _banned self)) →
          add_group_constraint ps b self
          = if list_contains c (_constraints self)
            then (self, inl (ConstraintConflictException Duplicate_constraint))
            else (append_constraint c self, inr tt)))
  ∧ ((∃ c, PlayerGroupConstraint__init__ ps b = inr c
           ∧ add_group_constraint ps b self = (append_constraint c self, inr tt))
     ∨ ∃ e, add_group_constraint ps b self = (self, inl e)).
Proof.
  rewrite add_group_constraint_eq. split; [|split].
  - by intros e ->.
  - intros c Hinit. rewrite Hinit, _add_eq.
    rewrite (PlayerGroupConstraint__init___players _ _ _ Hinit). split.
    + intros before p after -> Hbefore Hp.
      rewrite (find_first (banned_or_locked self) before after p); first done.
      * intros q [Hl Hb]%Hbefore. unfold banned_or_locked.
        by rewrite !bool_decide_eq_false_2.
      * unfold banned_or_locked. apply orb_true_iff.
        rewrite !bool_decide_eq_true. done.
    + intros Hfree. rewrite find_all_false; first done.
      intros q [Hl Hb]%Hfree. unfold banned_or_locked.
      by rewrite !bool_decide_eq_false_2.
  - destruct (PlayerGroupConstraint__init__ ps b) as [e|c]; first by eauto.
    rewrite _add_eq. destruct (find _ _); first by eauto.
    destruct (list_contains _ _); by eauto.
Qed.

Lemma add_group_constraint_outcome_witness :
  let self := (lock (Str "b") false LineupConstraints__init__).1 in
  add_group_constraint ["a"; "b"; "c"] (BInt 1) self
  = (self, inl (ConstraintConflictException (Ban_lock_constraint_already_exists "b"))).
Proof.
  cbv zeta.
  apply (proj1 (proj1 (proj2 (add_group_constraint_outcome ["a"; "b"; "c"] (BInt 1)
                                (lock (Str "b") false LineupConstraints__init__).1))
                  (mkPlayerGroupConstraint ["a"; "b"; "c"] (Some 1) None None)
                  ltac:(by vm_compute))
           ["a"] "b" ["c"]).
  - reflexivity.
  - apply Forall_forall. apply (bool_decide_unpack _). by vm_compute.
  - left. apply (bool_decide_unpack _). by vm_compute.
Defined.

(** ** What every sequence of calls keeps *)

Lemma registry_invariant_init : registry_invariant LineupConstraints__init__.
Proof.
  unfold registry_invariant. cbn.
  split; [by constructor|]. split; [done|]. do 3 (split; [done|]).
  intros c p Hc. by apply elem_of_nil in Hc.
Qed.

Lemma registry_invariant_append (c : PlayerGroupConstraint) (self : LineupConstraints) :
  registry_invariant self → valid_constraint c →
  list_contains c (_constraints self) = false →
  (∀ p, p ∈ players c → (p ∉ _banned self) ∧ (p ∉ _locked self)) →
  registry_invariant (append_constraint c self).
Proof.
  intros (Hvalid & Hdistinct & Hbl & Hbe & Hee & Hgroups) Hc Hnew Hfree.
  assert (∀ c', c' ∈ _constraints self → PlayerGroupConstraint__eq__ c' c = false)
    as Hnew'.
  { intros c' Hc'. apply not_true_is_false. intros Heq.
    apply not_true_iff_false in Hnew. apply Hnew, existsb_elem_of. eauto. }
  unfold registry_invariant. cbn.
  split; [|split; [|do 3 (split; [done|])]].
  - apply Forall_app. split; first done. by constructor.
  - intros i j ci cj Hi Hj Heq.
    apply lookup_snoc_Some in Hi as [[Hi Hci]|[Hi <-]];
      apply lookup_snoc_Some in Hj as [[Hj Hcj]|[Hj <-]].
    + by apply (Hdistinct i j ci cj).
    + apply list_elem_of_lookup_2 in Hci. by rewrite (Hnew' ci Hci) in Heq.
    + apply list_elem_of_lookup_2 in Hcj.
      rewrite PlayerGroupConstraint__eq___sym in Heq. by rewrite (Hnew' cj Hcj) in Heq.
    + lia.
  - intros c' p [Hc' | ->%list_elem_of_singleton]%elem_of_app Hp.
    + by apply (Hgroups c' p).
    + by apply Hfree.
Qed.

Lemma add_group_constraint_returns (ps : list string) (b : bound)
    (self self' : LineupConstraints) :
  add_group_constraint ps b self = (self', inr tt) →
  ∃ c, PlayerGroupConstraint__init__ ps b = inr c
       ∧ self' = append_constraint c self
       ∧ (∀ p, p ∈ ps → (p ∉ _banned self) ∧ (p ∉ _locked self))
       ∧ list_contains c (_constraints self) = false.
Proof.
  rewrite add_group_constraint_eq.
  destruct (PlayerGroupConstraint__init__ ps b) as [e|c] eqn:Hinit; first done.
  rewrite _add_eq, (PlayerGroupConstraint__init___players _ _ _ Hinit).
  destruct (find _ _) eqn:Hfind; first done.
  destruct (list_contains _ _) eqn:Hdup; first done.
  intros [= <-]. exists c. do 2 (split; [done|]). split; last done.
  intros p Hp. rewrite find_none_iff in Hfind. specialize (Hfind p Hp).
  unfold banned_or_locked in Hfind. apply orb_false_iff in Hfind as [Hl Hb].
  apply bool_decide_eq_false in Hl, Hb. done.
Qed.

Section fresh_players.
Variable self : LineupConstraints.
Variable l : list string.
Hypothesis Hinv : registry_invariant self.
Hypothesis Hfresh : ∀ q, q ∈ l → __contains__ self q = false.

Lemma fresh_not_in (q : string) :
  q ∈ (list_to_set l : gset string) →
  (q ∉ _locked self) ∧ (q ∉ _banned self)
  ∧ (q ∉ _locked_for_exposure self) ∧ (q ∉ _banned_for_exposure self)
  ∧ ∀ c, c ∈ _constraints self → q ∉ players c.
Proof. intros Hq%elem_of_list_to_set. by apply not_contains, Hfresh. Qed.

Ltac fresh_absurd q Hq :=
  let Hc := fresh in
  destruct (fresh_not_in q Hq) as (? & ? & ? & ? & Hc); try done;
  by eapply Hc.

Lemma registry_invariant_update_banned : registry_invariant (update_banned l self).
Proof.
  destruct Hinv as (Hvalid & Hdistinct & Hbl & Hbe & Hee & Hgroups).
  unfold registry_invariant. cbn. do 2 (split; [done|]).
  split; [|split; [|split; [done|]]].
  - intros q [Hq|Hq]%elem_of_union Hq'; [by apply (Hbl q) | fresh_absurd q Hq].
  - intros q [[Hq|Hq]%elem_of_union|Hq]%elem_of_union Hq'.
    + apply (Hbe q); [by apply elem_of_union_l | done].
    + apply elem_of_union in Hq' as [Hq'|Hq']; fresh_absurd q Hq.
    + apply (Hbe q); [by apply elem_of_union_r | done].
  - intros c p Hc Hp. destruct (Hgroups c p Hc Hp) as [Hb Hl]. split; last done.
    intros [Hq|Hq]%elem_of_union; first done. fresh_absurd p Hq.
Qed.

Lemma registry_invariant_update_locked : registry_invariant (update_locked l self).
Proof.
  destruct Hinv as (Hvalid & Hdistinct & Hbl & Hbe & Hee & Hgroups).
  unfold registry_invariant. cbn. do 2 (split; [done|]).
  split; [|split; [|split; [done|]]].
  - intros q Hq' [Hq|Hq]%elem_of_union; [by apply (Hbl q) | fresh_absurd q Hq].
  - intros q [Hq|[Hq|Hq]%elem_of_union]%elem_of_union Hq'.
    + apply (Hbe q); [by apply elem_of_union_l | done].
    + apply (Hbe q); [by apply elem_of_union_r | done].
    + apply elem_of_union in Hq' as [Hq'|Hq']; fresh_absurd q Hq.
  - intros c p Hc Hp. destruct (Hgroups c p Hc Hp) as [Hb Hl]. split; first done.
    intros [Hq|Hq]%elem_of_union; first done. fresh_absurd p Hq.
Qed.

Lemma registry_invariant_update_banned_for_exposure :
  registry_invariant (update_banned_for_exposure l self).
Proof.
  destruct Hinv as (Hvalid & Hdistinct & Hbl & Hbe & Hee & Hgroups).
  unfold registry_invariant. cbn. do 3 (split; [done|]).
  split; [|split; [|done]].
  - intros q Hq [[Hq'|Hq']%elem_of_union|Hq']%elem_of_union.
    + apply (Hbe q); [done | by apply elem_of_union_l].
    + apply elem_of_union in Hq as [Hq|Hq]; fresh_absurd q Hq'.
    + apply (Hbe q); [done | by apply elem_of_union_r].
  - intros q [Hq|Hq]%elem_of_union Hq'; [by apply (Hee q) | fresh_absurd q Hq].
Qed.

Lemma registry_invariant_update_locked_for_exposure :
  registry_invariant (update_locked_for_exposure l self).
Proof.
  destruct Hinv as (Hvalid & Hdistinct & Hbl & Hbe & Hee & Hgroups).
  unfold registry_invariant. cbn. do 3 (split; [done|]).
  split; [|split; [|done]].
  - intros q Hq [Hq'|[Hq'|Hq']%elem_of_union]%elem_of_union.
    + apply (Hbe q); [done | by apply elem_of_union_l].
    + apply (Hbe q); [done | by apply elem_of_union_r].
    + apply elem_of_union in Hq as [Hq|Hq]; fresh_absurd q Hq'.
  - intros q Hq' [Hq|Hq]%elem_of_union; [by apply (Hee q) | fresh_absurd q Hq].
Qed.
End fresh_players.

(** A call that raises leaves the registry as it was. *)
Lemma raises_unchanged (c : call) (self self' : LineupConstraints) (e : exn) :
  (∃ ps b, c = Call_add_group_constraint ps b
           ∧ add_group_constraint ps b self = (self', inl e))
  ∨ (∃ ps fe, c = Call_ban ps fe ∧ ban ps fe self = (self', inl e))
  ∨ (∃ ps fe, c = Call_lock ps fe ∧ lock ps fe self = (self', inl e)) →
  self' = self.
Proof.
  intros [(ps & b & _ & H)|[(ps & fe & _ & H)|(ps & fe & _ & H)]]; revert H.
  - rewrite add_group_constraint_eq.
    destruct (PlayerGroupConstraint__init__ ps b); first by intros [= <-].
    rewrite _add_eq. destruct (find _ _); first by intros [= <-].
    by destruct (list_contains _ _); intros [= <-].
  - rewrite ban_eq. cbn zeta. destruct (_iterableify ps); first by intros [= <-].
    by destruct (find _ _); intros [= <-].
  - rewrite lock_eq. cbn zeta. destruct (_iterableify ps); first by intros [= <-].
    by destruct (find _ _); intros [= <-].
Qed.

Lemma registry_invariant_step (c : call) (self : LineupConstraints) :
  registry_invariant self → registry_invariant (run_call c self).1.
Proof.
  intros Hinv. destruct c as [ps b|ps for_exposure|ps for_exposure|]; cbn [run_call].
  - destruct (add_group_constraint ps b self) as [self' [e|[]]] eqn:Hadd.
    + rewrite (raises_unchanged (Call_add_group_constraint ps b) self self' e);
        [done | left; eauto].
    + apply add_group_constraint_returns in Hadd as (c & Hinit & -> & Hfree & Hnew).
      pose proof (PlayerGroupConstraint__init___valid _ _ _ Hinit) as [Hps Hvalid].
      cbn. apply registry_invariant_append; try done. by rewrite Hps.
  - destruct (ban ps for_exposure self) as [self' [e|[]]] eqn:Hban.
    + rewrite (raises_unchanged (Call_ban ps for_exposure) self self' e);
        [done | right; left; eauto].
    + apply ban_returns in Hban as (_ & Hfresh & ->). cbn.
      destruct for_exposure;
        [by apply registry_invariant_update_banned_for_exposure
        | by apply registry_invariant_update_banned].
  - destruct (lock ps for_exposure self) as [self' [e|[]]] eqn:Hlock.
    + rewrite (raises_unchanged (Call_lock ps for_exposure) self self' e);
        [done | right; right; eauto].
    + apply lock_returns in Hlock as (_ & Hfresh & ->). cbn.
      destruct for_exposure;
        [by apply registry_invariant_update_locked_for_exposure
        | by apply registry_invariant_update_locked].
  - destruct Hinv as (Hvalid & Hdistinct & Hbl & Hbe & Hee & Hgroups).
    unfold registry_invariant. cbn. do 3 (split; [done|]).
    split; [|split; [|done]].
    + intros q _ [Hq|Hq]%elem_of_union; by apply elem_of_empty in Hq.
    + intros q Hq. by apply elem_of_empty in Hq.
Qed.

Lemma run_calls_invariant (cs : list call) : registry_invariant (run_calls cs).
Proof.
  induction cs as [|c cs IH] using rev_ind.
  - apply registry_invariant_init.
  - unfold run_calls. rewrite foldl_snoc. by apply registry_invariant_step.
Qed.

(** X11. After any sequence of calls, every stored constraint is valid and
    no two stored constraints are equal. *)
Theorem reachable_constraints_valid (cs : list call) :
  Forall valid_constraint (_constraints (run_calls cs))
  ∧ (∀ i j ci cj,
       _constraints (run_calls cs) !! i = Some ci →
       _constraints (run_calls cs) !! j = Some cj →
       PlayerGroupConstraint__eq__ ci cj = true → i = j).
Proof.
  pose proof (run_calls_invariant cs) as (Hvalid & Hdistinct & _). done.
Qed.

Lemma reachable_constraints_valid_witness :
  let cs := [Call_add_group_constraint ["a"; "b"] (BInt 1);
             Call_add_group_constraint ["b"; "a"] (BInt 1);
             Call_add_group_constraint ["b"; "c"] (BSeq [1; 2])] in
  _constraints (run_calls cs)
  = [mkPlayerGroupConstraint ["a"; "b"] (Some 1) None None;
     mkPlayerGroupConstraint ["b"; "c"] None (Some 1) (Some 2)]
  ∧ Forall valid_constraint (_constraints (run_calls cs)).
Proof.
  cbv zeta. split; first by vm_compute.
  apply (reachable_constraints_valid
           [Call_add_group_constraint ["a"; "b"] (BInt 1);
            Call_add_group_constraint ["b"; "a"] (BInt 1);
            Call_add_group_constraint ["b"; "c"] (BSeq [1; 2])]).
Defined.

(** X12. After any sequence of calls, a player is in at most one of the
    banned, locked, banned for exposure and locked for exposure players,
    and a player of a stored group is neither banned nor locked. *)
Theorem reachable_categories_disjoint (cs : list call) (p : string) :
  let self := run_calls cs in
  (p ∈ _banned self → (p ∉ _locked self)
     ∧ (p ∉ _banned_for_exposure self) ∧ (p ∉ _locked_for_exposure self))
  ∧ (p ∈ _locked self → (p ∉ _banned self)
     ∧ (p ∉ _banned_for_exposure self) ∧ (p ∉ _locked_for_exposure self))
  ∧ (p ∈ _banned_for_exposure self → p ∉ _locked_for_exposure self)
  ∧ (∀ c, c ∈ _constraints self → p ∈ players c →
          is_banned self p = false ∧ is_locked self p = false).
Proof.
  intros self.
  pose proof (run_calls_invariant cs) as (_ & _ & Hbl & Hbe & Hee & Hgroups).
  fold self in Hbl, Hbe, Hee, Hgroups.
  split; [|split; [|split]].
  - intros Hb. split; [|split].
    + intros Hq. by apply (Hbl p).
    + intros Hq. apply (Hbe p); [by apply elem_of_union_l | by apply elem_of_union_l].
    + intros Hq. apply (Hbe p); [by apply elem_of_union_l | by apply elem_of_union_r].
  - intros Hl. split; [|split].
    + intros Hq. by apply (Hbl p).
    + intros Hq. apply (Hbe p); [by apply elem_of_union_r | by apply elem_of_union_l].
    + intros Hq. apply (Hbe p); [by apply elem_of_union_r | by apply elem_of_union_r].
  - intros Hq Hq'. by apply (Hee p).
  - intros c Hc Hp. destruct (Hgroups c p Hc Hp) as [Hb Hl].
    unfold is_banned, is_locked. by rewrite !bool_decide_eq_false_2.
Qed.

Lemma reachable_categories_disjoint_witness :
  let self := run_calls [Call_ban (Coll ["a"; "b"]) false;
                         Call_lock (Coll ["c"; "a"]) false;
                         Call_lock (Str "c") true] in
  ("a" ∉ _locked self) ∧ ("a" ∉ _banned_for_exposure self)
  ∧ ("a" ∉ _locked_for_exposure self).
Proof.
  cbv zeta.
  apply (proj1 (reachable_categories_disjoint
                  [Call_ban (Coll ["a"; "b"]) false;
                   Call_lock (Coll ["c"; "a"]) false;
                   Call_lock (Str "c") true] "a")).
  apply (bool_decide_unpack _). by vm_compute.
Defined.

(** ** Equality of registries *)

Definition pairwise_distinct (l : list PlayerGroupConstraint) : Prop :=
  ∀ i j ci cj, l !! i = Some ci → l !! j = Some cj →
               PlayerGroupConstraint__eq__ ci cj = true → i = j.

Section registry_equality.
Variable hash_str : string → Z.
Variable hash_tuple : Z * option Z * option Z * option Z → Z.

Local Abbreviation hash := (PlayerGroupConstraint__hash__ hash_str hash_tuple).
Local Abbreviation contains := (py_set_contains hash_str hash_tuple).

Lemma py_set_contains_iff (s : list PlayerGroupConstraint) (key : PlayerGroupConstraint) :
  contains s key = true ↔
    ∃ entry, entry ∈ s ∧ hash entry = hash key
             ∧ PlayerGroupConstraint__eq__ entry key = true.
Proof.
  unfold py_set_contains. rewrite existsb_elem_of.
  split; intros (entry & Hin & H); exists entry; split; try done.
  - apply andb_true_iff in H as [Hh Heq]. by apply bool_decide_eq_true in Hh.
  - destruct H as [Hh Heq]. apply andb_true_iff. by rewrite bool_decide_eq_true.
Qed.

(** The set of a list without equal constraints has the constraints of the
    list as its entries. *)
Lemma py_set_distinct_from (acc l : list PlayerGroupConstraint) :
  pairwise_distinct (acc ++ l) →
  foldl (py_set_add hash_str hash_tuple) acc l = acc ++ l.
Proof.
  revert acc. induction l as [|x l IH]; intros acc Hd; cbn.
  - by rewrite app_nil_r.
  - assert (contains acc x = false) as Hx.
    { apply not_true_is_false. intros (entry & Hin & _ & Heq)%py_set_contains_iff.
      apply list_elem_of_lookup in Hin as [i Hi].
      pose proof (lookup_lt_Some _ _ _ Hi) as Hlt.
      assert (i = length acc); last lia.
      apply (Hd i (length acc) entry x); try done.
      - by apply lookup_app_l_Some.
      - by rewrite list_lookup_middle. }
    unfold py_set_add at 2. rewrite Hx.
    rewrite IH; rewrite <- app_assoc; done.
Qed.

Lemma py_set_distinct (l : list PlayerGroupConstraint) :
  pairwise_distinct l → py_set hash_str hash_tuple l = l.
Proof. intros Hd. unfold py_set. by rewrite py_set_distinct_from. Qed.

Lemma LineupConstraints__eq___spec (a b : LineupConstraints) :
  registry_invariant a → registry_invariant b →
  LineupConstraints__eq__ hash_str hash_tuple a b = true ↔
    length (_constraints a) = length (_constraints b)
    ∧ (∀ c, c ∈ _constraints a →
            ∃ d, d ∈ _constraints b ∧ PlayerGroupConstraint__eq__ d c = true)
    ∧ _locked a = _locked b ∧ _banned a = _banned b
    ∧ _locked_for_exposure a = _locked_for_exposure b
    ∧ _banned_for_exposure a = _banned_for_exposure b.
Proof.
  intros (Hva & Hda & _) (Hvb & Hdb & _).
  unfold LineupConstraints__eq__.
  rewrite !py_set_distinct by done. unfold py_set_eq.
  assert (forallb (contains (_constraints b)) (_constraints a) = true ↔
          ∀ c, c ∈ _constraints a →
               ∃ d, d ∈ _constraints b ∧ PlayerGroupConstraint__eq__ d c = true)
    as Hsub.
  { rewrite forallb_forall. setoid_rewrite <- list_elem_of_In.
    setoid_rewrite py_set_contains_iff. split.
    - intros H c Hc. destruct (H c Hc) as (d & Hd & _ & Heq). eauto.
    - intros H c Hc. destruct (H c Hc) as (d & Hd & Heq). exists d.
      split; first done. split; last done.
      rewrite Forall_forall in Hva, Hvb.
      destruct (Hva c Hc) as (_ & Hndc & _). destruct (Hvb d Hd) as (_ & Hndd & _).
      by apply PlayerGroupConstraint__hash___eq. }
  destruct (forallb _ _) eqn:Hall; repeat case_bool_decide; cbn;
    (split;
     [ try done; intros _; repeat split; try done; by apply Hsub
     | intros (Hlen & Hc & Hl & Hb & Hle & Hbe); try done; try congruence;
       apply Hsub in Hc; congruence ]).
Qed.
End registry_equality.

(** X13. Two registries, each made by a sequence of calls, compare equal
    exactly when they store the same number of constraints, every
    constraint of the first has an equal in the second, and their four
    sets of players are equal, whatever the hash is. *)
Theorem LineupConstraints__eq___characterised (hash_str : string → Z)
    (hash_tuple : Z * option Z * option Z * option Z → Z) (cs1 cs2 : list call) :
  let a := run_calls cs1 in
  let b := run_calls cs2 in
  LineupConstraints__eq__ hash_str hash_tuple a b = true ↔
    length (_constraints a) = length (_constraints b)
    ∧ (∀ c, c ∈ _constraints a →
            ∃ d, d ∈ _constraints b ∧ PlayerGroupConstraint__eq__ d c = true)
    ∧ _locked a = _locked b ∧ _banned a = _banned b
    ∧ _locked_for_exposure a = _locked_for_exposure b
    ∧ _banned_for_exposure a = _banned_for_exposure b.
Proof.
  intros a b. apply LineupConstraints__eq___spec; apply run_calls_invariant.
Qed.

(** X14. A registry made by a sequence of calls compares equal to itself,
    and to any registry made by calls that holds the same constraints in
    another order and the same four sets of players. *)
Theorem LineupConstraints__eq___order_independent (hash_str : string → Z)
    (hash_tuple : Z * option Z * option Z * option Z → Z) (cs1 cs2 : list call) :
  let a := run_calls cs1 in
  let b := run_calls cs2 in
  LineupConstraints__eq__ hash_str hash_tuple a a = true
  ∧ (_constraints a ≡ₚ _constraints b →
     _locked a = _locked b → _banned a = _banned b →
     _locked_for_exposure a = _locked_for_exposure b →
     _banned_for_exposure a = _banned_for_exposure b →
     LineupConstraints__eq__ hash_str hash_tuple a b = true).
Proof.
  intros a b.
  pose proof PlayerGroupConstraint__eq___refl as Hrefl.
  split.
  - apply LineupConstraints__eq___spec; try apply run_calls_invariant.
    repeat split; try done. intros c Hc. by exists c.
  - intros Hperm Hl Hb Hle Hbe.
    apply LineupConstraints__eq___spec; try apply run_calls_invariant.
    repeat split; try done.
    + by apply Permutation_length.
    + intros c Hc. exists c. split; last done. by rewrite <- Hperm.
Qed.

Lemma LineupConstraints__eq___order_independent_witness :
  let hash_str := λ s : string, Z.of_nat (String.length s) in
  let hash_tuple := λ t : Z * option Z * option Z * option Z, t.1.1.1 in
  LineupConstraints__eq__ hash_str hash_tuple
    (run_calls [Call_ban (Str "x") false;
                Call_add_group_constraint ["a"; "b"] (BInt 1);
                Call_add_group_constraint ["c"; "d"] (BInt 1)])
    (run_calls [Call_add_group_constraint ["c"; "d"] (BInt 1);
                Call_add_group_constraint ["a"; "b"] (BInt 1);
                Call_ban (Str "x") false]) = true.
Proof.
  cbv zeta.
  apply (LineupConstraints__eq___order_independent _ _
           [Call_ban (Str "x") false;
            Call_add_group_constraint ["a"; "b"] (BInt 1);
            Call_add_group_constraint ["c"; "d"] (BInt 1)]
           [Call_add_group_constraint ["c"; "d"] (BInt 1);
            Call_add_group_constraint ["a"; "b"] (BInt 1);
            Call_ban (Str "x") false]).
  - apply (bool_decide_unpack _). by vm_compute.
  - by vm_compute.
  - by vm_compute.
  - by vm_compute.
  - by vm_compute.
Defined.

(** ** Clearing the exposure sets *)

(** X15. After any sequence of calls, a player who is banned or locked for
    exposure cannot be banned or locked for exposure again; once the
    exposure sets are cleared, the player can, exactly when the player is
    in no stored group. *)
Theorem clear_then_exposure_again (cs : list call) (x : string) :
  let self := run_calls cs in
  let cleared := (clear_exposure_constraints self).1 in
  x ∈ _banned_for_exposure self ∨ x ∈ _locked_for_exposure self →
  (ban (Str x) true self
   = (self, inl (ConstraintConflictException (exists_in_another_constraint x)))
   ∧ lock (Str x) true self
     = (self, inl (ConstraintConflictException (exists_in_another_constraint x))))
  ∧ ((∀ c, c ∈ _constraints self → x ∉ players c) ↔
     (ban (Str x) true cleared).2 = inr tt)
  ∧ ((∀ c, c ∈ _constraints self → x ∉ players c) ↔
     (lock (Str x) true cleared).2 = inr tt).
Proof.
  intros self cleared Hx.
  assert (__contains__ self x = true) as Hin.
  { apply __contains___iff. destruct Hx; eauto 6. }
  assert (__contains__ cleared x = true ↔ ∃ c, c ∈ _constraints self ∧ x ∈ players c)
    as Hcleared.
  { rewrite __contains___iff. cbn.
    pose proof (run_calls_invariant cs) as (_ & _ & _ & Hbe & _).
    fold self in Hbe. split.
    - intros [Hq|[Hq|[Hq|[Hq|Hq]]]]; try done.
      + exfalso. apply (Hbe x); [by apply elem_of_union_r|].
        apply elem_of_union. by destruct Hx; [left | right].
      + exfalso. apply (Hbe x); [by apply elem_of_union_l|].
        apply elem_of_union. by destruct Hx; [left | right].
    - eauto 6. }
  assert ((∀ c, c ∈ _constraints self → x ∉ players c) ↔ __contains__ cleared x = false)
    as Hfree.
  { rewrite <- not_true_iff_false, Hcleared. split.
    - intros Hno (c & Hc & Hp). by apply (Hno c Hc).
    - intros Hno c Hc Hp. apply Hno. eauto. }
  split; [|split].
  - rewrite ban_eq, lock_eq. cbn. by rewrite Hin.
  - rewrite Hfree, ban_eq. cbn. by destruct (__contains__ cleared x).
  - rewrite Hfree, lock_eq. cbn. by destruct (__contains__ cleared x).
Qed.

Lemma clear_then_exposure_again_witness :
  let self := run_calls [Call_ban (Str "x") true] in
  (ban (Str "x") true (clear_exposure_constraints self).1).2 = inr tt.
Proof.
  cbv zeta.
  apply (proj1 (proj2 (clear_then_exposure_again [Call_ban (Str "x") true] "x"
                         ltac:(left; apply (bool_decide_unpack _); by vm_compute)))).
  apply Forall_forall. apply (bool_decide_unpack _). by vm_compute.
Defined.

(** ** Iterators at any position *)



(** ** Display of the bounds *)

(** X17. The bounds of a constructed constraint display as the decimal of
    the exact bound, or as the decimals of the two bounds of the range
    around [" to "]; [None] is never displayed. *)
Theorem _bounds_str_constructed (ps : list string) (b : bound)
    (c : PlayerGroupConstraint) :
  PlayerGroupConstraint__init__ ps b = inr c →
  (∀ e, b = BInt e → _bounds_str c = pretty e)
  ∧ (∀ l h, b = BSeq [l; h] → _bounds_str c = (pretty l ++ " to " ++ pretty h)%string).
Proof.
  intros Hinit.
  destruct (PlayerGroupConstraint__init___valid _ _ _ Hinit) as [Hps (_ & _ & Hbounds)].
  revert Hinit. unfold PlayerGroupConstraint__init__.
  destruct (PlayerConstraint__init__ ps) as [?|ps']; first done.
  unfold mbind, result_bind, mret, result_ret. split.
  - intros e ->. revert Hinit.
    destruct (_exact_bounds_sanity_check _); first done.
    intros [= <-]. unfold _bounds_str. cbn.
    destruct Hbounds as [(e' & [= <-] & _ & _ & Hpos & _)|(? & ? & [=] & _)].
    destruct (Z.eqb_spec e 0); [lia | done].
  - intros l h ->. revert Hinit.
    destruct (_hi_lo_bounds_sanity_check _); first done.
    by intros [= <-].
Qed.

Lemma _bounds_str_constructed_witness :
  _bounds_str (mkPlayerGroupConstraint ["a"; "b"; "c"] None (Some 1) (Some 3)) = "1 to 3".
Proof.
  apply (proj2 (_bounds_str_constructed ["a"; "b"; "c"] (BSeq [1; 3]) _
                  ltac:(by vm_compute)) 1 3).
  reflexivity.
Defined.

(** An exact bound of 0, which construction refuses, would display as no
    bound at all. *)
Example _bounds_str_zero :
  _bounds_str (mkPlayerGroupConstraint ["a"; "b"] (Some 0) None None) = "None to None"
  ∧ _bounds_str (mkPlayerGroupConstraint ["a"; "b"; "c"] (Some 12) None None) = "12".
Proof. by vm_compute. Qed.

(** ** Successive calls *)

Lemma __contains___update (self self' : LineupConstraints) (l : list string) (p : string) :
  self' = update_banned l self ∨ self' = update_locked l self
  ∨ self' = update_banned_for_exposure l self
  ∨ self' = update_locked_for_exposure l self →
  __contains__ self' p = __contains__ self p || bool_decide (p ∈ l).
Proof.
  intros Hself'. apply eq_true_iff_eq.
  rewrite orb_true_iff, bool_decide_eq_true, !__contains___iff.
  destruct Hself' as [->|[->|[->| ->]]]; cbn;
    rewrite elem_of_union, elem_of_list_to_set; tauto.
Qed.

Lemma ban_returns_update (ps : players_arg) (for_exposure : bool)
    (self self' : LineupConstraints) :
  ban ps for_exposure self = (self', inr tt) →
  self' = update_banned (_iterableify ps) self
  ∨ self' = update_locked (_iterableify ps) self
  ∨ self' = update_banned_for_exposure (_iterableify ps) self
  ∨ self' = update_locked_for_exposure (_iterableify ps) self.
Proof. intros (_ & _ & ->)%ban_returns. destruct for_exposure; auto. Qed.

Lemma lock_returns_update (ps : players_arg) (for_exposure : bool)
    (self self' : LineupConstraints) :
  lock ps for_exposure self = (self', inr tt) →
  self' = update_banned (_iterableify ps) self
  ∨ self' = update_locked (_iterableify ps) self
  ∨ self' = update_banned_for_exposure (_iterableify ps) self
  ∨ self' = update_locked_for_exposure (_iterableify ps) self.
Proof. intros (_ & _ & ->)%lock_returns. destruct for_exposure; auto. Qed.

(** X18. A player given to a returning [ban] or [lock], for exposure or
    not, then passes the membership test, and every later [ban] or [lock]
    of that player, for exposure or not, raises
    [ConstraintConflictException] and changes nothing. *)
Theorem banned_or_locked_once (ps : players_arg) (for_exposure : bool)
    (self self' : LineupConstraints) (p : string) :
  ban ps for_exposure self = (self', inr tt)
  ∨ lock ps for_exposure self = (self', inr tt) →
  p ∈ _iterableify ps →
  __contains__ self' p = true
  ∧ ∀ for_exposure',
      ban (Str p) for_exposure' self'
      = (self', inl (ConstraintConflictException (exists_in_another_constraint p)))
      ∧ lock (Str p) for_exposure' self'
        = (self', inl (ConstraintConflictException (exists_in_another_constraint p))).
Proof.
  intros Hcall Hp.
  assert (__contains__ self' p = true) as Hin.
  { destruct Hcall as [Hupd%ban_returns_update|Hupd%lock_returns_update];
      rewrite (__contains___update _ _ _ _ Hupd), (bool_decide_eq_true_2 _ Hp);
      apply orb_true_r. }
  split; first done. intros for_exposure'.
  rewrite ban_eq, lock_eq. cbn. by rewrite Hin.
Qed.

Lemma banned_or_locked_once_witness :
  let self' := (ban (Coll ["a"; "b"]) true LineupConstraints__init__).1 in
  lock (Str "b") false self'
  = (self', inl (ConstraintConflictException (exists_in_another_constraint "b"))).
Proof.
  cbv zeta.
  apply (proj2 (banned_or_locked_once (Coll ["a"; "b"]) true LineupConstraints__init__
                  (ban (Coll ["a"; "b"]) true LineupConstraints__init__).1 "b"
                  ltac:(left; by vm_compute)
                  ltac:(apply (bool_decide_unpack _); by vm_compute)) false).
Defined.

Lemma update_app (l1 l2 : list string) (self : LineupConstraints) :
  update_banned l2 (update_banned l1 self) = update_banned (l1 ++ l2) self
  ∧ update_locked l2 (update_locked l1 self) = update_locked (l1 ++ l2) self
  ∧ update_banned_for_exposure l2 (update_banned_for_exposure l1 self)
    = update_banned_for_exposure (l1 ++ l2) self
  ∧ update_locked_for_exposure l2 (update_locked_for_exposure l1 self)
    = update_locked_for_exposure (l1 ++ l2) self.
Proof.
  unfold update_banned, update_locked, update_banned_for_exposure,
    update_locked_for_exposure.
  cbn [_constraints _banned _locked _banned_for_exposure _locked_for_exposure].
  rewrite (list_to_set_app_L (C:=gset string) l1 l2).
  by rewrite !(assoc_L (∪)).
Qed.

(** X19. Two successive returning calls of [ban] on two collections, both
    for exposure or both not, leave the registry that one call on the
    players of both leaves; the same holds of [lock]. *)
Theorem successive_batches (l1 l2 : list string) (for_exposure : bool)
    (self s1 s2 : LineupConstraints) :
  (ban (Coll l1) for_exposure self = (s1, inr tt) →
   ban (Coll l2) for_exposure s1 = (s2, inr tt) →
   ban (Coll (l1 ++ l2)) for_exposure self = (s2, inr tt))
  ∧ (lock (Coll l1) for_exposure self = (s1, inr tt) →
     lock (Coll l2) for_exposure s1 = (s2, inr tt) →
     lock (Coll (l1 ++ l2)) for_exposure self = (s2, inr tt)).
Proof.
  assert ((s1 = update_banned l1 self ∨ s1 = update_locked l1 self
           ∨ s1 = update_banned_for_exposure l1 self
           ∨ s1 = update_locked_for_exposure l1 self) →
          (∀ q, q ∈ l1 → __contains__ self q = false) →
          (∀ q, q ∈ l2 → __contains__ s1 q = false) →
          find (__contains__ self) (l1 ++ l2) = None) as Hfresh.
  { intros Hupd H1 H2. apply find_none_iff.
    intros q [Hq|Hq]%elem_of_app; first by apply H1.
    specialize (H2 q Hq). rewrite (__contains___update _ _ _ _ Hupd) in H2.
    by apply orb_false_iff in H2 as [H2 _]. }
  split.
  - intros Hb1 Hb2. pose proof (ban_returns_update _ _ _ _ Hb1) as Hupd.
    apply ban_returns in Hb1 as (Hne1 & Hf1 & Hs1).
    apply ban_returns in Hb2 as (Hne2 & Hf2 & Hs2).
    cbn [_iterableify] in *.
    rewrite ban_eq. cbn zeta. cbn [_iterableify].
    rewrite (Hfresh Hupd Hf1 Hf2).
    destruct (l1 ++ l2) eqn:Happ.
    { apply app_eq_nil in Happ as [-> _]. done. }
    rewrite <- Happ. f_equal. rewrite Hs2, Hs1.
    destruct (update_app l1 l2 self) as (Hb & Hl & Hbe & Hle).
    destruct for_exposure; [by rewrite Hbe | by rewrite Hb].
  - intros Hb1 Hb2. pose proof (lock_returns_update _ _ _ _ Hb1) as Hupd.
    apply lock_returns in Hb1 as (Hne1 & Hf1 & Hs1).
    apply lock_returns in Hb2 as (Hne2 & Hf2 & Hs2).
    cbn [_iterableify] in *.
    rewrite lock_eq. cbn zeta. cbn [_iterableify].
    rewrite (Hfresh Hupd Hf1 Hf2).
    destruct (l1 ++ l2) eqn:Happ.
    { apply app_eq_nil in Happ as [-> _]. done. }
    rewrite <- Happ. f_equal. rewrite Hs2, Hs1.
    destruct (update_app l1 l2 self) as (Hb & Hl & Hbe & Hle).
    destruct for_exposure; [by rewrite Hle | by rewrite Hl].
Qed.

Lemma successive_batches_witness :
  ban (Coll (["a"; "b"] ++ ["c"])) false LineupConstraints__init__
  = ((ban (Coll ["c"]) false
        (ban (Coll ["a"; "b"]) false LineupConstraints__init__).1).1, inr tt).
Proof.
  apply (proj1 (successive_batches ["a"; "b"] ["c"] false LineupConstraints__init__
                  (ban (Coll ["a"; "b"]) false LineupConstraints__init__).1
                  (ban (Coll ["c"]) false
                     (ban (Coll ["a"; "b"]) false LineupConstraints__init__).1).1)).
  - by vm_compute.
  - by vm_compute.
Defined.
